(** * A shallow embedding of [webgui.py]

    The service drives one GPIO line with counted light pulses to try every
    four digit PIN, records the attempt with a camera, and is controlled over
    HTTP.  The development has two layers.

    - The actuator layer ([send_light_pulse], [send_pin]) is sequential code
      over the GPIO channel; it is embedded in a small error-and-trace monad.
    - The orchestration layer ([index], [bruteforce_pins],
      [record_images_and_video], [cleanup]) runs on several Python threads that
      share the module globals [running], [last_pin] and [camera]; it is
      embedded as a transition system whose steps are the statements that
      touch shared state, interleaved by an explicit schedule.

    Durations are milliseconds ([time.sleep(0.2)] is [Sleep 200]). *)

From Stdlib Require Import String Ascii List ZArith Arith Bool Lia.
From Stdlib Require Import DecimalString DecimalNat.
From Stdlib Require Import Permutation Sorted.
Import ListNotations.
Local Open Scope string_scope.
Local Open Scope list_scope.
Local Open Scope nat_scope.

(** ** Values shared by both layers *)

Inductive level := LOW | HIGH.

Inductive exn := RuntimeError | ValueError.

(** The log lines of the source, by the statement that writes them. *)
Inductive msg :=
| MsgPinStart (pin : string)            (* line 202 *)
| MsgDigit (position digit : nat)       (* line 210 *)
| MsgWaitDigit                          (* line 219 *)
| MsgPinDone                            (* line 222 *)
| MsgNoCamera                           (* line 227 *)
| MsgVideoStarted (path : string)       (* line 235 *)
| MsgImageSaved (file : string)         (* line 251 *)
| MsgNoFrame                            (* line 254 *)
| MsgVideoStopped                       (* line 259 *)
| MsgBruteStarted                       (* line 292 *)
| MsgBruteStoppedByUser                 (* line 295 *)
| MsgTestPin (pin : string)             (* line 300 *)
| MsgBruteError (e : exn)               (* line 306 *)
| MsgBruteDone                          (* line 311 *)
| MsgCameraReady                        (* line 71 *)
| MsgCameraNotOpened                    (* line 74 *)
| MsgCameraInitFailed                   (* line 77 *)
| MsgCleanup                            (* line 83 *)
| MsgCameraReleased                     (* line 87 *)
| MsgGpioCleaned                        (* line 91 *)
| MsgSignal                             (* line 34 *)
| MsgStatus (s : string).               (* lines 325, 332, 337 *)

(** What the program does to the outside world and to its globals. *)
Inductive event :=
| Output (l : level)                    (* GPIO.output(LED_PIN, l) returned *)
| Sleep (ms : Z)                        (* time.sleep *)
| Log (m : msg)
| SetRunning (b : bool)                 (* running = b *)
| SetLastPin (pin : string)             (* last_pin = pin *)
| SetCamera (opened : bool)             (* camera = cv2.VideoCapture(0) *)
| Spawn (child : nat)                   (* threading.Thread(...).start() *)
| CallSendPin (pin : string)            (* send_pin(pin) entered *)
| OutputFailed (l : level)              (* GPIO.output raised *)
| Join (child : nat) (timeout_ms : Z)   (* record_thread.join(timeout=5) *)
| OpenVideo (path : string)             (* cv2.VideoWriter(...) *)
| Imwrite (file label : string)         (* cv2.imwrite of a stamped frame *)
| VideoWrite                            (* out.write(frame) *)
| VideoRelease                          (* out.release() *)
| CameraRelease                         (* camera.release() *)
| GpioCleanup                           (* GPIO.cleanup() *)
| Respond (status : option string)      (* index returns the page *)
| Observe (pin : option string) (run : bool) (* /pin returns its JSON *)
| ProcessExit.

(** ** The actuator layer *)

(** RPi.GPIO refuses [output] on a channel that is not set up as an output:
    [GPIO.setup] (line 43) may have failed, or [GPIO.cleanup] (line 90) may
    have run. *)
Record gpio := { channel_ready : bool; line : level }.

Definition io (A : Type) : Type := gpio -> (exn + A) * gpio * list event.

Definition ret {A} (a : A) : io A := fun g => (inr a, g, []).

Definition raise {A} (e : exn) : io A := fun g => (inl e, g, []).

Definition bind {A B} (m : io A) (k : A -> io B) : io B :=
  fun g =>
    match m g with
    | (inl e, g1, t1) => (inl e, g1, t1)
    | (inr a, g1, t1) =>
        match k a g1 with
        | (r, g2, t2) => (r, g2, t1 ++ t2)
        end
    end.

Declare Scope io_scope.
Delimit Scope io_scope with io.
Notation "x <- m ;; k" := (bind m (fun x => k))
  (at level 61, m at next level, right associativity) : io_scope.
Notation "m ;; k" := (bind m (fun _ => k))
  (at level 61, right associativity) : io_scope.
Local Open Scope io_scope.

Definition GPIO_output (l : level) : io unit :=
  fun g =>
    if channel_ready g
    then (inr tt, {| channel_ready := true; line := l |}, [Output l])
    else (inl RuntimeError, g, []).

Definition time_sleep (ms : Z) : io unit := fun g => (inr tt, g, [Sleep ms]).

Definition logger_info (m : msg) : io unit := fun g => (inr tt, g, [Log m]).

(** [for x in l: body(x)] *)
Fixpoint for_each {A} (l : list A) (body : A -> io unit) : io unit :=
  match l with
  | [] => ret tt
  | x :: l' => body x ;; for_each l' body
  end.

Definition range (n : nat) : list nat := seq 0 n.

Definition enumerate {A} (l : list A) : list (nat * A) :=
  combine (seq 0 (length l)) l.

(** [int(digit_char)] on one character of ASCII: the digits convert, anything
    else raises [ValueError].  (Python's [int] also converts the decimal digits
    outside ASCII; the codes of the loop consist of the digits of ASCII.) *)
Definition digit_of_ascii (c : ascii) : option nat :=
  let n := nat_of_ascii c in
  if (48 <=? n) && (n <=? 57) then Some (n - 48) else None.

Definition int (c : ascii) : io nat :=
  match digit_of_ascii c with
  | Some d => ret d
  | None => raise ValueError
  end.

(** Lines 193-198. *)
Definition send_light_pulse : io unit :=
  GPIO_output HIGH ;;
  time_sleep 200 ;;
  GPIO_output LOW ;;
  time_sleep 300.

(** Lines 200-222. *)
Definition send_pin (pin_str : string) : io unit :=
  logger_info (MsgPinStart pin_str) ;;
  send_light_pulse ;;
  time_sleep 1000 ;;
  for_each (enumerate (list_ascii_of_string pin_str))
    (fun '(i, digit_char) =>
       target_digit <- int digit_char ;;
       logger_info (MsgDigit (i + 1) target_digit) ;;
       for_each (range target_digit)
         (fun _ => send_light_pulse ;; time_sleep 100) ;;
       if i <? 3
       then logger_info MsgWaitDigit ;; time_sleep 3100
       else ret tt) ;;
  logger_info MsgPinDone.

(** The events that reach the wire or take time: everything but the log. *)
Definition is_log (e : event) : bool :=
  match e with Log _ => true | _ => false end.

Definition actuator (t : list event) : list event :=
  filter (fun e => negb (is_log e)) t.

(** One pulse as the target device sees it. *)
Definition pulse : list event := [Output HIGH; Sleep 200; Output LOW; Sleep 300].

(** [d] pulses, each followed by the 100 ms gap. *)
Definition digit_pulses (d : nat) : list event :=
  concat (repeat (pulse ++ [Sleep 100]) d).

(** A channel that is set up as an output. *)
Definition ready (l : level) : gpio := {| channel_ready := true; line := l |}.

(** The body of the loop of line 208, for the character at position [i]. *)
Definition digit_round (i : nat) (digit_char : ascii) : io unit :=
  target_digit <- int digit_char ;;
  logger_info (MsgDigit (i + 1) target_digit) ;;
  for_each (range target_digit)
    (fun _ => send_light_pulse ;; time_sleep 100) ;;
  if i <? 3
  then logger_info MsgWaitDigit ;; time_sleep 3100
  else ret tt.

(** ** Formatting *)

(** [str(n)] for a non-negative integer. *)
Definition str (n : nat) : string := NilZero.string_of_uint (Nat.to_uint n).

Fixpoint zeros (k : nat) : string :=
  match k with
  | 0 => EmptyString
  | S k' => String "0" (zeros k')
  end.

(** [f"{n:04d}"]: decimal, padded with zeros on the left to a width of at
    least four. *)
Definition fmt04d (n : nat) : string :=
  let s := str n in (zeros (4 - String.length s) ++ s)%string.

#[global] Arguments fmt04d : simpl never.

(** [os.path.join(video_dir, f"session_{timestamp}.avi")] and
    [os.path.join(image_dir, f"{timestamp}_{img_count:04d}.jpg")], without the
    directory, which is the same for every file of a kind. *)
Definition video_name (timestamp : string) : string :=
  ("session_" ++ timestamp ++ ".avi")%string.

Definition image_name (timestamp : string) (img_count : nat) : string :=
  (timestamp ++ "_" ++ fmt04d img_count ++ ".jpg")%string.

(** [last_pin or '----'] *)
Definition pin_or_dashes (last_pin : option string) : string :=
  match last_pin with
  | None => "----"
  | Some EmptyString => "----"
  | Some p => p
  end.

(** [f"PIN: {last_pin or '----'} | {timestamp_str}"] *)
Definition stamp (last_pin : option string) (timestamp_str : string) : string :=
  ("PIN: " ++ pin_or_dashes last_pin ++ " | " ++ timestamp_str)%string.

(** ** The orchestration layer *)

(** A [cv2.VideoCapture] object.  It is truthy whether or not the device
    opened, and [read] on one that is not open returns [(False, None)]. *)
Record capture := { isOpened : bool }.

(** The module globals of lines 59-61. *)
Record globals := {
  running : bool;
  last_pin : option string;
  camera : option capture
}.

Definition set_running (b : bool) (s : globals) : globals :=
  {| running := b; last_pin := last_pin s; camera := camera s |}.

Definition set_last_pin (p : string) (s : globals) : globals :=
  {| running := running s; last_pin := Some p; camera := camera s |}.

Definition set_camera (c : capture) (s : globals) : globals :=
  {| running := running s; last_pin := last_pin s; camera := Some c |}.

(** [request.form.get("action")] *)
Inductive action := ActStart | ActStop | ActNone.

Inductive status := StCameraFailed | StStarted | StStopping.

Definition status_text (s : status) : string :=
  match s with
  | StCameraFailed => "Kamera konnte nicht initialisiert werden!"
  | StStarted => "Bruteforce gestartet"
  | StStopping => "Bruteforce wird gestoppt..."
  end.

(** What the outside world answers when a statement asks it. *)
Inductive open_outcome :=
| OpenOk        (* the device opened *)
| OpenClosed    (* VideoCapture was built, isOpened() is False *)
| OpenRaises.   (* cv2.VideoCapture(0) raised *)

Record oracle := {
  cam_open : open_outcome;   (* init_camera, lines 66-78 *)
  frame_ok : bool;           (* ret of camera.read() on an open device *)
  now : string               (* datetime.now().strftime(...) *)
}.

(** Program points.  A step executes the statements of the lines given, which
    contain at most one access to shared state besides the log. *)
Inductive handler_pc :=
| H_Entry       (* 318-321, 334: the conditions on action and running *)
| H_Camera      (* 322 *)
| H_Init        (* 323-326 *)
| H_Spawn       (* 328-332, 339 *)
| H_Stop        (* 335-337, 339 *)
| H_Done.

Inductive brute_pc :=
| B_Start               (* 284 *)
| B_SpawnRec            (* 287-289 *)
| B_LogStart            (* 292 *)
| B_Check (i : nat)     (* 293-296 *)
| B_SetPin (i : nat)    (* 298-300 *)
| B_Send (i : nat)      (* 302 *)
| B_Pause (i : nat)     (* 303 *)
| B_Except (e : exn)    (* 305-306 *)
| B_FinRunning          (* 308 *)
| B_FinJoin             (* 309 *)
| B_FinOutput           (* 310 *)
| B_FinLog              (* 311 *)
| B_Returned
| B_Died (e : exn).     (* an exception left bruteforce_pins *)

Inductive rec_pc :=
| R_Start                                   (* 226-228 *)
| R_Open                                    (* 230-235 *)
| R_Loop (timestamp : string) (img_count : nat)   (* 237 *)
| R_Read (timestamp : string) (img_count : nat)   (* 238-239, 253-256 *)
| R_Stamp (timestamp : string) (img_count : nat)  (* 241-252, 256 *)
| R_Release                                 (* 258-259 *)
| R_Returned
| R_Died.       (* camera.read() on None *)

Inductive thread :=
| Handler (a : action) (pc : handler_pc)            (* index *)
| Brute (pc : brute_pc) (record_thread : option nat) (* bruteforce_pins *)
| Recorder (pc : rec_pc)                            (* record_images_and_video *)
| Query (answered : bool).                          (* get_current_pin *)

Definition code_space : nat := 10000.

#[global] Arguments code_space : simpl never.

(** The result of one step of one thread. *)
Record outcome := {
  th' : thread;
  g' : globals;
  hw' : gpio;
  evs : list event;
  child : option thread
}.

Definition goto (th : thread) (s : globals) (h : gpio) (l : list event) : option outcome :=
  Some {| th' := th; g' := s; hw' := h; evs := l; child := None |}.

Definition fork (th : thread) (s : globals) (h : gpio) (l : list event) (c : thread)
  : option outcome :=
  Some {| th' := th; g' := s; hw' := h; evs := l; child := Some c |}.

(** [index], lines 313-339, for a POST. *)
Definition handler_step (fresh : nat) (o : oracle) (a : action) (pc : handler_pc)
  (s : globals) (h : gpio) : option outcome :=
  match pc with
  | H_Entry =>
      match a with
      | ActStart =>
          if running s
          then goto (Handler a H_Done) s h [Respond None]
          else goto (Handler a H_Camera) s h []
      | ActStop =>
          if running s
          then goto (Handler a H_Stop) s h []
          else goto (Handler a H_Done) s h [Respond None]
      | ActNone => goto (Handler a H_Done) s h [Respond None]
      end
  | H_Camera =>
      match camera s with
      | None => goto (Handler a H_Init) s h []
      | Some _ => goto (Handler a H_Spawn) s h []
      end
  | H_Init =>
      match cam_open o with
      | OpenOk =>
          goto (Handler a H_Spawn) (set_camera {| isOpened := true |} s) h
            [SetCamera true; Log MsgCameraReady]
      | OpenClosed =>
          goto (Handler a H_Done) (set_camera {| isOpened := false |} s) h
            [SetCamera false; Log MsgCameraNotOpened;
             Log (MsgStatus (status_text StCameraFailed));
             Respond (Some (status_text StCameraFailed))]
      | OpenRaises =>
          goto (Handler a H_Done) s h
            [Log MsgCameraInitFailed;
             Log (MsgStatus (status_text StCameraFailed));
             Respond (Some (status_text StCameraFailed))]
      end
  | H_Spawn =>
      fork (Handler a H_Done) s h
        [Spawn fresh; Log (MsgStatus (status_text StStarted));
         Respond (Some (status_text StStarted))]
        (Brute B_Start None)
  | H_Stop =>
      goto (Handler a H_Done) (set_running false s) h
        [SetRunning false; Log (MsgStatus (status_text StStopping));
         Respond (Some (status_text StStopping))]
  | H_Done => None
  end.

(** [bruteforce_pins], lines 281-311. *)
Definition brute_step (fresh : nat) (pc : brute_pc) (record_thread : option nat)
  (s : globals) (h : gpio) : option outcome :=
  let at_ pc' := Brute pc' record_thread in
  match pc with
  | B_Start => goto (at_ B_SpawnRec) (set_running true s) h [SetRunning true]
  | B_SpawnRec =>
      fork (Brute B_LogStart (Some fresh)) s h [Spawn fresh] (Recorder R_Start)
  | B_LogStart => goto (at_ (B_Check 0)) s h [Log MsgBruteStarted]
  | B_Check i =>
      if code_space <=? i then goto (at_ B_FinRunning) s h []
      else if running s then goto (at_ (B_SetPin i)) s h []
      else goto (at_ B_FinRunning) s h [Log MsgBruteStoppedByUser]
  | B_SetPin i =>
      let pin := fmt04d i in
      goto (at_ (B_Send i)) (set_last_pin pin s) h
        [SetLastPin pin; Log (MsgTestPin pin)]
  | B_Send i =>
      let pin := fmt04d i in
      match send_pin pin h with
      | (inr _, h1, _) => goto (at_ (B_Pause i)) s h1 [CallSendPin pin]
      | (inl e, h1, _) => goto (at_ (B_Except e)) s h1 [CallSendPin pin]
      end
  | B_Pause i => goto (at_ (B_Check (S i))) s h [Sleep 3000]
  | B_Except e => goto (at_ B_FinRunning) s h [Log (MsgBruteError e)]
  | B_FinRunning => goto (at_ B_FinJoin) (set_running false s) h [SetRunning false]
  | B_FinJoin =>
      match record_thread with
      | Some r => goto (at_ B_FinOutput) s h [Join r 5000]
      | None => None
      end
  | B_FinOutput =>
      match GPIO_output LOW h with
      | (inr _, h1, t) => goto (at_ B_FinLog) s h1 t
      | (inl e, h1, _) => goto (at_ (B_Died e)) s h1 [OutputFailed LOW]
      end
  | B_FinLog => goto (at_ B_Returned) s h [Log MsgBruteDone]
  | B_Returned => None
  | B_Died _ => None
  end.

(** [record_images_and_video], lines 224-259. *)
Definition recorder_step (o : oracle) (pc : rec_pc) (s : globals) (h : gpio)
  : option outcome :=
  match pc with
  | R_Start =>
      match camera s with
      | None => goto (Recorder R_Returned) s h [Log MsgNoCamera]
      | Some _ => goto (Recorder R_Open) s h []
      end
  | R_Open =>
      let timestamp := now o in
      goto (Recorder (R_Loop timestamp 1)) s h
        [OpenVideo (video_name timestamp);
         Log (MsgVideoStarted (video_name timestamp))]
  | R_Loop ts n =>
      if running s
      then goto (Recorder (R_Read ts n)) s h []
      else goto (Recorder R_Release) s h []
  | R_Read ts n =>
      match camera s with
      | None => goto (Recorder R_Died) s h []
      | Some cam =>
          if isOpened cam && frame_ok o
          then goto (Recorder (R_Stamp ts n)) s h []
          else goto (Recorder (R_Loop ts n)) s h [Log MsgNoFrame; Sleep 3000]
      end
  | R_Stamp ts n =>
      let img_file := image_name ts n in
      goto (Recorder (R_Loop ts (n + 1))) s h
        [Imwrite img_file (stamp (last_pin s) (now o)); VideoWrite;
         Log (MsgImageSaved img_file); Sleep 3000]
  | R_Release => goto (Recorder R_Returned) s h [VideoRelease; Log MsgVideoStopped]
  | R_Returned => None
  | R_Died => None
  end.

(** [get_current_pin], lines 341-343. *)
Definition query_step (answered : bool) (s : globals) (h : gpio) : option outcome :=
  if answered then None
  else goto (Query true) s h [Observe (last_pin s) (running s)].

Definition thread_step (fresh : nat) (o : oracle) (th : thread)
  (s : globals) (h : gpio) : option outcome :=
  match th with
  | Handler a pc => handler_step fresh o a pc s h
  | Brute pc r => brute_step fresh pc r s h
  | Recorder pc => recorder_step o pc s h
  | Query b => query_step b s h
  end.

(** [cleanup], lines 81-93.  The [try ... except: pass] swallows a failing
    [GPIO.output]; after [GPIO.cleanup] the channel is an input again. *)
Definition cleanup (s : globals) (h : gpio) : globals * gpio * list event :=
  let s1 := set_running false s in
  let '(s2, cam_evs) :=
    match camera s1 with
    | Some _ =>
        (set_camera {| isOpened := false |} s1,
         [CameraRelease; Log MsgCameraReleased])
    | None => (s1, [])
    end in
  let '(h2, gpio_evs) :=
    match GPIO_output LOW h with
    | (inr _, h1, t) =>
        ({| channel_ready := false; line := line h1 |},
         t ++ [GpioCleanup; Log MsgGpioCleaned])
    | (inl _, h1, _) => (h1, [OutputFailed LOW])
    end in
  (s2, h2, [Log MsgCleanup; SetRunning false] ++ cam_evs ++ gpio_evs).

(** How the process ends.  [cleanup] is registered with [atexit] (line 96),
    called from the [finally] of the main block (line 377), and called by
    [signal_handler] before [sys.exit(0)] (lines 35-36), whose [SystemExit]
    then unwinds through that [finally]. *)
Inductive exit_path :=
| ExitSignal      (* SIGTERM or SIGINT *)
| ExitNormal      (* app.run returned *)
| ExitFailure.    (* app.run raised *)

Definition cleanups_on (p : exit_path) : nat :=
  match p with
  | ExitSignal => 3
  | ExitNormal => 2
  | ExitFailure => 2
  end.

Fixpoint cleanup_times (k : nat) (s : globals) (h : gpio)
  : globals * gpio * list event :=
  match k with
  | 0 => (s, h, [])
  | S k' =>
      let '(s1, h1, t1) := cleanup s h in
      let '(s2, h2, t2) := cleanup_times k' s1 h1 in
      (s2, h2, t1 ++ t2)
  end.

Definition shutdown (p : exit_path) (s : globals) (h : gpio)
  : globals * gpio * list event :=
  let '(s1, h1, t) := cleanup_times (cleanups_on p) s h in
  (s1, h1,
   match p with ExitSignal => [Log MsgSignal] | _ => [] end ++ t ++ [ProcessExit]).

(** ** The running process *)

Inductive actor := Main | Thr (t : nat).

Record config := {
  g : globals;
  hw : gpio;
  pool : list thread;
  trace : list (actor * event);   (* newest first *)
  alive : bool
}.

(** The events of a configuration, oldest first. *)
Definition history (c : config) : list (actor * event) := rev (trace c).

Inductive request :=
| PostIndex (a : action)    (* POST / *)
| GetPin.                   (* GET /pin *)

Definition serve (r : request) : thread :=
  match r with
  | PostIndex a => Handler a H_Entry
  | GetPin => Query false
  end.

(** A schedule is a list of these: a request arrives and gets a thread of its
    own ([threaded=True], line 371), a thread runs one step, or the process
    ends.  All threads are daemon threads: none runs after the process exit. *)
Inductive label :=
| Arrive (r : request)
| Run (t : nat) (o : oracle)
| Shutdown (p : exit_path).

Fixpoint update {A} (n : nat) (x : A) (l : list A) : list A :=
  match l, n with
  | [], _ => []
  | _ :: l', 0 => x :: l'
  | y :: l', S n' => y :: update n' x l'
  end.

Definition tag (a : actor) (l : list event) : list (actor * event) :=
  map (pair a) l.

Definition opt_list {A} (o : option A) : list A :=
  match o with Some x => [x] | None => [] end.

Definition step (c : config) (l : label) : config :=
  if negb (alive c) then c
  else
    match l with
    | Arrive r =>
        {| g := g c; hw := hw c; pool := pool c ++ [serve r];
           trace := trace c; alive := true |}
    | Run t o =>
        match nth_error (pool c) t with
        | None => c
        | Some th =>
            match thread_step (length (pool c)) o th (g c) (hw c) with
            | None => c
            | Some out =>
                {| g := g' out; hw := hw' out;
                   pool := update t (th' out) (pool c) ++ opt_list (child out);
                   trace := rev (tag (Thr t) (evs out)) ++ trace c;
                   alive := true |}
            end
        end
    | Shutdown p =>
        let '(s1, h1, t) := shutdown p (g c) (hw c) in
        {| g := s1; hw := h1; pool := pool c;
           trace := rev (tag Main t) ++ trace c; alive := false |}
    end.

Definition exec (c : config) (ls : list label) : config := fold_left step ls c.

(** The process after its start-up code: [camera] is what [init_camera]
    (line 365) left, the channel is ready when [GPIO.setup] (line 43)
    succeeded. *)
Definition boot (cam : option capture) (gpio_ok : bool) : config :=
  {| g := {| running := false; last_pin := None; camera := cam |};
     hw := {| channel_ready := gpio_ok; line := LOW |};
     pool := []; trace := []; alive := true |}.

(** ** Reading a history *)

Definition actor_eqb (a b : actor) : bool :=
  match a, b with
  | Main, Main => true
  | Thr m, Thr n => m =? n
  | _, _ => false
  end.

(** The events of one actor, in order. *)
Definition events_of (a : actor) (l : list (actor * event)) : list event :=
  map snd (filter (fun x => actor_eqb (fst x) a) l).

(** The codes for which [send_pin] was called. *)
Fixpoint sends (l : list event) : list string :=
  match l with
  | [] => []
  | CallSendPin p :: l' => p :: sends l'
  | _ :: l' => sends l'
  end.

Definition pc_of (c : config) (t : nat) : option thread := nth_error (pool c) t.

Definition quiet : oracle := {| cam_open := OpenOk; frame_ok := true; now := "t" |}.

(** The configurations a process can be in. *)
Inductive reachable (c0 : config) : config -> Prop :=
| reach_boot : reachable c0 c0
| reach_step c l : reachable c0 c -> reachable c0 (step c l).

(** What a step does, case by case. *)
Inductive stepped (c : config) : label -> config -> Prop :=
| st_idle l : stepped c l c
| st_arrive r :
    alive c = true ->
    stepped c (Arrive r)
      {| g := g c; hw := hw c; pool := pool c ++ [serve r];
         trace := trace c; alive := true |}
| st_run t o th out :
    alive c = true ->
    nth_error (pool c) t = Some th ->
    thread_step (length (pool c)) o th (g c) (hw c) = Some out ->
    stepped c (Run t o)
      {| g := g' out; hw := hw' out;
         pool := update t (th' out) (pool c) ++ opt_list (child out);
         trace := rev (tag (Thr t) (evs out)) ++ trace c;
         alive := true |}
| st_shutdown p s1 h1 t :
    alive c = true ->
    shutdown p (g c) (hw c) = (s1, h1, t) ->
    stepped c (Shutdown p)
      {| g := s1; hw := h1; pool := pool c;
         trace := rev (tag Main t) ++ trace c; alive := false |}.

(** ** What a run writes into the history *)

(** Lines 298-302 for the index [i], up to the call of [send_pin]. *)
Definition announce (i : nat) : list event :=
  [SetLastPin (fmt04d i); Log (MsgTestPin (fmt04d i))].

Definition attempt (i : nat) : list event := announce i ++ [CallSendPin (fmt04d i)].

(** One full round of the loop of line 293: the code, then the 3 s pause. *)
Definition round (i : nat) : list event := attempt i ++ [Sleep 3000].

(** The rounds for the indices below [k], in order. *)
Definition rounds (k : nat) : list event := flat_map round (seq 0 k).

Definition prologue (r : nat) : list event :=
  [SetRunning true; Spawn r; Log MsgBruteStarted].

(** The [finally] block of lines 307-311 when its GPIO write succeeds. *)
Definition epilogue (r : nat) : list event :=
  [SetRunning false; Join r 5000; Output LOW; Log MsgBruteDone].

(** The three ways out of the loop: the range is exhausted, the flag was
    read as cleared (line 294), or [send_pin] raised (line 305). *)
Inductive loop_exit : list event -> Prop :=
| exit_exhausted : loop_exit (rounds code_space)
| exit_stopped i :
    i < code_space -> loop_exit (rounds i ++ [Log MsgBruteStoppedByUser])
| exit_failed i e :
    i < code_space ->
    loop_exit (rounds i ++ attempt i ++ [Log (MsgBruteError e)]).

(** The events of a run after its prologue, by program point; [n] is its
    recorder thread. *)
Definition body_at (pc : brute_pc) (n : nat) (body : list event) : Prop :=
  match pc with
  | B_Start | B_SpawnRec | B_LogStart => False
  | B_Check i => i <= code_space /\ body = rounds i
  | B_SetPin i => i < code_space /\ body = rounds i
  | B_Send i => i < code_space /\ body = rounds i ++ announce i
  | B_Pause i => i < code_space /\ body = rounds i ++ attempt i
  | B_Except e => exists i, i < code_space /\ body = rounds i ++ attempt i
  | B_FinRunning => loop_exit body
  | B_FinJoin => exists lp, loop_exit lp /\ body = lp ++ [SetRunning false]
  | B_FinOutput =>
      exists lp, loop_exit lp /\ body = lp ++ [SetRunning false; Join n 5000]
  | B_FinLog =>
      exists lp, loop_exit lp /\
        body = lp ++ [SetRunning false; Join n 5000; Output LOW]
  | B_Returned => exists lp, loop_exit lp /\ body = lp ++ epilogue n
  | B_Died e =>
      exists lp, loop_exit lp /\
        body = lp ++ [SetRunning false; Join n 5000; OutputFailed LOW]
  end.

(** All the events of a run, by program point. *)
Definition brute_trace (pc : brute_pc) (r : option nat) (ev : list event) : Prop :=
  match pc with
  | B_Start => r = None /\ ev = []
  | B_SpawnRec => r = None /\ ev = [SetRunning true]
  | B_LogStart => exists n, r = Some n /\ ev = [SetRunning true; Spawn n]
  | _ => exists n body, r = Some n /\ ev = prologue n ++ body /\ body_at pc n body
  end.

(** ** Schedules used as examples *)

(** Thread [t] takes [n] steps in a row. *)
Definition runs (t n : nat) : list label := repeat (Run t quiet) n.

Definition camera_ok : option capture := Some {| isOpened := true |}.

(** A start request is served (thread 0), the run (thread 1) sends the code
    0000 and pauses; its recorder is thread 2. *)
Definition one_code : list label :=
  [Arrive (PostIndex ActStart)] ++ runs 0 3 ++ runs 1 7.



(** Every call of [send_pin] in a list of events comes directly after the
    assignment of its code to [last_pin] and the log line of line 300. *)
Definition announced (ev : list event) : Prop :=
  forall pre p post,
    ev = pre ++ CallSendPin p :: post ->
    exists pre', pre = pre' ++ [SetLastPin p; Log (MsgTestPin p)].

(** A start request is served and the run (thread 1) has just assigned
    0000 to [last_pin]; then the status is queried (thread 2 is the
    recorder, thread 3 the query). *)
Definition query_before_send : list label :=
  [Arrive (PostIndex ActStart)] ++ runs 0 3 ++ runs 1 5 ++
  [Arrive GetPin] ++ runs 3 1.

(** The part of the [finally] block of lines 307-311 that a run has behind
    it at each of its program points; [B_Died] is the point after a failed
    GPIO write in line 310. *)
Definition finally_at (pc : brute_pc) (n : nat) : option (list event) :=
  match pc with
  | B_FinRunning => Some []
  | B_FinJoin => Some [SetRunning false]
  | B_FinOutput => Some [SetRunning false; Join n 5000]
  | B_FinLog => Some [SetRunning false; Join n 5000; Output LOW]
  | B_Returned => Some (epilogue n)
  | B_Died _ => Some [SetRunning false; Join n 5000; OutputFailed LOW]
  | _ => None
  end.

(** [GPIO.setup] failed at start-up; a start request is served and the run
    (thread 1) goes as far as it gets. *)
Definition run_without_gpio : list label :=
  [Arrive (PostIndex ActStart)] ++ runs 0 3 ++ runs 1 10.

(** The number that a string of four decimal characters denotes. *)
Definition code_value (s : string) : option nat :=
  match s with
  | String c0 (String c1 (String c2 (String c3 EmptyString))) =>
      match digit_of_ascii c0, digit_of_ascii c1,
            digit_of_ascii c2, digit_of_ascii c3 with
      | Some d0, Some d1, Some d2, Some d3 =>
          Some (d0 * 1000 + d1 * 100 + d2 * 10 + d3)
      | _, _, _, _ => None
      end
  | _ => None
  end.


(** ** Runs that are left alone *)




(** The log lines of the two early ways out of the loop. *)
Definition early_exit_log (e : event) : bool :=
  match e with
  | Log MsgBruteStoppedByUser | Log (MsgBruteError _) => true
  | _ => false
  end.




(** ** Stopping *)

(** A property holds in a configuration and in every configuration that a
    schedule leads through. *)
Fixpoint always (P : config -> bool) (c : config) (ls : list label) : bool :=
  P c &&
  match ls with
  | [] => true
  | l :: ls' => always P (step c l) ls'
  end.

(** The active flag is cleared. *)
Definition stopped (c : config) : bool := negb (running (g c)).

(** The number of steps that the schedule gives to thread [t]. *)
Definition steps_of (t : nat) (ls : list label) : nat :=
  length (filter (fun l => match l with Run u _ => u =? t | _ => false end) ls).


Definition dist (pc : brute_pc) : nat :=
  match pc with
  | B_Start => 5
  | B_SetPin _ => 4
  | B_SpawnRec | B_Send _ => 3
  | B_LogStart | B_Pause _ => 2
  | B_Check _ => 1
  | _ => 0
  end.





(** The run has sent 0000 and is pausing; a stop request is served
    (thread 3). *)
Definition stop_after_one_code : list label :=
  one_code ++ [Arrive (PostIndex ActStop)] ++ runs 3 2.

(** The run has sent 0000, has read the flag as set for the next index, and
    only then a stop request is served (thread 3). *)
Definition stop_after_check : list label :=
  one_code ++ runs 1 1 ++ [Arrive (PostIndex ActStop)] ++ runs 3 2.

(** ** What a capture task writes into the history *)

(** A tick with a frame: the stamped image, the video frame, the log line,
    the 3 s sleep.  A tick without one: the warning and the sleep. *)
Definition hit (ts : string) (n : nat) (label : string) : list event :=
  [Imwrite (image_name ts n) label; VideoWrite;
   Log (MsgImageSaved (image_name ts n)); Sleep 3000].

Definition miss : list event := [Log MsgNoFrame; Sleep 3000].

Definition frames (outs : list (option string)) : nat :=
  length (filter (fun o => match o with Some _ => true | None => false end) outs).

(** The ticks of a capture task whose image counter stands at [n]; each
    tick is the label stamped on its frame, or [None] when the read failed. *)
Fixpoint ticks (ts : string) (n : nat) (outs : list (option string)) : list event :=
  match outs with
  | [] => []
  | Some label :: rest => hit ts n label ++ ticks ts (n + 1) rest
  | None :: rest => miss ++ ticks ts n rest
  end.

Definition opening (ts : string) : list event :=
  [OpenVideo (video_name ts); Log (MsgVideoStarted (video_name ts))].

Definition closing : list event := [VideoRelease; Log MsgVideoStopped].

(** The events of a capture task, by program point. *)
Definition rec_trace (pc : rec_pc) (ev : list event) : Prop :=
  match pc with
  | R_Start | R_Open => ev = []
  | R_Loop ts n | R_Read ts n | R_Stamp ts n =>
      exists outs, n = 1 + frames outs /\ ev = opening ts ++ ticks ts 1 outs
  | R_Release | R_Died =>
      exists ts outs, ev = opening ts ++ ticks ts 1 outs
  | R_Returned =>
      ev = [Log MsgNoCamera] \/
      exists ts outs, ev = opening ts ++ ticks ts 1 outs ++ closing
  end.

(** Counting in the events of a capture task. *)
Fixpoint images (ev : list event) : list string :=
  match ev with
  | [] => []
  | Imwrite file _ :: ev' => file :: images ev'
  | _ :: ev' => images ev'
  end.

Definition count (p : event -> bool) (ev : list event) : nat :=
  length (filter p ev).

Definition is_tick (e : event) : bool :=
  match e with Sleep 3000 => true | _ => false end.

Definition is_miss (e : event) : bool :=
  match e with Log MsgNoFrame => true | _ => false end.

Definition is_open_video (e : event) : bool :=
  match e with OpenVideo _ => true | _ => false end.

Definition is_release_video (e : event) : bool :=
  match e with VideoRelease => true | _ => false end.

(** An oracle whose camera delivers no frame. *)
Definition blind : oracle := {| cam_open := OpenOk; frame_ok := false; now := "t" |}.

(** A run is started; its capture task (thread 2) opens the video and takes
    one tick on which the read fails; then the run is stopped (thread 3 is
    the stop request) and the capture task finishes. *)
Definition capture_with_miss : list label :=
  [Arrive (PostIndex ActStart)] ++ runs 0 3 ++ runs 1 2 ++ runs 2 3 ++
  [Run 2 blind] ++ [Arrive (PostIndex ActStop)] ++ runs 3 2 ++ runs 2 2.

(** ** Start requests, the camera and the end of the process *)

(** A run that has been spawned and has neither returned nor died. *)
Definition executing (th : thread) : bool :=
  match th with
  | Brute B_Returned _ | Brute (B_Died _) _ => false
  | Brute _ _ => true
  | _ => false
  end.

Definition runs_executing (c : config) : nat := length (filter executing (pool c)).

(** A capture task that holds an open video writer. *)
Definition video_open (th : thread) : bool :=
  match th with
  | Recorder (R_Loop _ _) | Recorder (R_Read _ _) | Recorder (R_Stamp _ _)
  | Recorder R_Release => true
  | _ => false
  end.

Definition videos_open (c : config) : nat := length (filter video_open (pool c)).

(** The threads that only exist once a camera object exists. *)
Definition needs_camera (th : thread) : bool :=
  match th with
  | Handler _ H_Spawn | Brute _ _ | Recorder _ => true
  | _ => false
  end.

(** Two start requests (threads 0 and 1) are served concurrently: both read
    the flag before either of the runs they spawn (threads 2 and 3) has set
    it.  Both runs then send their first code, and both capture tasks
    (threads 4 and 5) open a video. *)
Definition concurrent_starts : list label :=
  [Arrive (PostIndex ActStart); Arrive (PostIndex ActStart);
   Run 0 quiet; Run 1 quiet; Run 0 quiet; Run 1 quiet; Run 0 quiet; Run 1 quiet]
  ++ runs 2 6 ++ runs 3 6 ++ runs 4 2 ++ runs 5 2.

(** A run is active; a further start request arrives. *)
Definition start_while_running : list label :=
  one_code ++ [Arrive (PostIndex ActStart)].

(** An oracle whose camera does not open. *)
Definition closed : oracle :=
  {| cam_open := OpenClosed; frame_ok := false; now := "t" |}.

(** No camera object exists; a start request is served and [init_camera]
    fails. *)
Definition start_without_camera : list label :=
  [Arrive (PostIndex ActStart); Run 0 quiet; Run 0 quiet; Run 0 closed].

(** A run is active and its capture task (thread 2) has opened the video;
    the process receives SIGTERM; the schedule then still offers steps to
    the capture task. *)
Definition signal_while_capturing : list label :=
  [Arrive (PostIndex ActStart)] ++ runs 0 3 ++ runs 1 2 ++ runs 2 3 ++
  [Shutdown ExitSignal] ++ runs 2 5.

(** ** Decimal digits *)

(** The decimal digit [k] in front of [rest]. *)
Definition decimal_digit (k : nat) (rest : Decimal.uint) : Decimal.uint :=
  match k with
  | 0 => Decimal.D0 rest | 1 => Decimal.D1 rest | 2 => Decimal.D2 rest
  | 3 => Decimal.D3 rest | 4 => Decimal.D4 rest | 5 => Decimal.D5 rest
  | 6 => Decimal.D6 rest | 7 => Decimal.D7 rest | 8 => Decimal.D8 rest
  | _ => Decimal.D9 rest
  end.

(** The character of the decimal digit [k]. *)
Definition decimal_char (k : nat) : ascii := ascii_of_nat (48 + k).

(** ** The camera at start-up *)

(** [init_camera], lines 64-78.  The assignment of line 67 happens as soon as
    [cv2.VideoCapture(0)] has returned, so an object that did not open stays
    in [camera]; when the constructor raises, [camera] is as before. *)
Definition init_camera (o : oracle) (s : globals) : bool * globals * list event :=
  match cam_open o with
  | OpenOk =>
      (true, set_camera {| isOpened := true |} s,
       [SetCamera true; Log MsgCameraReady])
  | OpenClosed =>
      (false, set_camera {| isOpened := false |} s,
       [SetCamera false; Log MsgCameraNotOpened])
  | OpenRaises => (false, s, [Log MsgCameraInitFailed])
  end.

(** The globals of lines 59-61 after the call of line 365. *)
Definition startup (o : oracle) : globals :=
  snd (fst (init_camera o {| running := false; last_pin := None; camera := None |})).

(** The events that need a frame of the camera or assign [camera]. *)
Definition camera_event (e : event) : bool :=
  match e with
  | Imwrite _ _ | VideoWrite | SetCamera _ => true
  | _ => false
  end.

(** The program points that only a camera that is missing or open leads to. *)
Definition past_camera (th : thread) : bool :=
  match th with
  | Handler _ H_Init | Recorder (R_Stamp _ _) => true
  | _ => false
  end.

(** The camera object exists and its device is not open. *)
Definition unopened : option capture := Some {| isOpened := false |}.

(** A start request is served on its own (thread 0) up to the test of line
    322. *)
Definition start_up_to_camera_test : list label :=
  [Arrive (PostIndex ActStart)] ++ runs 0 1.

(** An oracle whose camera device does not open. *)
Definition no_device : oracle :=
  {| cam_open := OpenClosed; frame_ok := false; now := "t" |}.

(** ** A channel that was never set up *)

(** The channel after a failed [GPIO.setup] (lines 42-46: the exception is
    logged and the service goes on). *)
Definition no_channel : gpio := {| channel_ready := false; line := LOW |}.

(** Where a run can be on such a channel, and the calls of [send_pin] that it
    has made by then: the first call raises, so the loop is left in its first
    round, and the write of line 310 raises out of the [finally] block. *)
Definition without_channel (th : thread) (ev : list event) : Prop :=
  match th with
  | Brute pc r =>
      match pc with
      | B_Start | B_SpawnRec => sends ev = []
      | B_LogStart | B_Check 0 | B_SetPin 0 | B_Send 0 =>
          r <> None /\ sends ev = []
      | B_Except RuntimeError => r <> None /\ sends ev = [fmt04d 0]
      | B_FinRunning | B_FinJoin | B_FinOutput | B_Died RuntimeError =>
          r <> None /\ (sends ev = [] \/ sends ev = [fmt04d 0])
      | _ => False
      end
  | _ => True
  end.

(** ** What [last_pin] holds *)

(** A code of the loop of line 293. *)
Definition is_code (s : string) : Prop :=
  exists i, i < code_space /\ s = fmt04d i.

Definition code_or_none (p : option string) : Prop :=
  match p with
  | None => True
  | Some s => is_code s
  end.

(** The events that show a value of [last_pin] show [None] or a code. *)
Definition shows_code (e : event) : Prop :=
  match e with
  | SetLastPin p | CallSendPin p => is_code p
  | Observe p _ => code_or_none p
  | Imwrite _ label => exists p ts, code_or_none p /\ label = stamp p ts
  | _ => True
  end.

(** A run is past the test of line 293 only with an index of the range. *)
Definition in_range (th : thread) : Prop :=
  match th with
  | Brute (B_SetPin i) _ | Brute (B_Send i) _ => i < code_space
  | _ => True
  end.

(** The events that [cleanup] and the end of the process write. *)
Definition shutdown_event (e : event) : bool :=
  match e with
  | Log _ | SetRunning false | CameraRelease | Output LOW | GpioCleanup
  | OutputFailed LOW | ProcessExit => true
  | _ => false
  end.

(** ** Counting what the end of the process does *)

Definition is_camera_release (e : event) : bool :=
  match e with CameraRelease => true | _ => false end.

Definition is_output_low (e : event) : bool :=
  match e with Output LOW => true | _ => false end.

Definition is_gpio_cleanup (e : event) : bool :=
  match e with GpioCleanup => true | _ => false end.

Definition is_output_failed (e : event) : bool :=
  match e with OutputFailed _ => true | _ => false end.

(** The state that one call of [cleanup] leaves. *)
Definition cleaned (s : globals) (h : gpio) : Prop :=
  running s = false /\
  (camera s = None \/ camera s = unopened) /\
  channel_ready h = false.

(** The events of a call of [cleanup] in such a state. *)
Definition cleanup_again (s : globals) : list event :=
  [Log MsgCleanup; SetRunning false] ++
  match camera s with
  | Some _ => [CameraRelease; Log MsgCameraReleased]
  | None => []
  end ++ [OutputFailed LOW].

(** ** [send_pin] on any string *)

(** The values of the characters before the first one that is not a decimal
    digit. *)
Fixpoint leading_digits (chars : list ascii) : list nat :=
  match chars with
  | [] => []
  | c :: rest =>
      match digit_of_ascii c with
      | Some d => d :: leading_digits rest
      | None => []
      end
  end.

(** The pulses in a list of events, and the time slept in it. *)
Definition is_output_high (e : event) : bool :=
  match e with Output HIGH => true | _ => false end.

Definition pulses_sent (t : list event) : nat := count is_output_high t.

Fixpoint slept (t : list event) : Z :=
  match t with
  | [] => 0
  | Sleep ms :: t' => ms + slept t'
  | _ :: t' => slept t'
  end.

(** ** The time a run takes *)




(** The sum of the [k] lowest decimal digits of [i]. *)
Fixpoint digit_sum (k i : nat) : nat :=
  match k with
  | 0 => 0
  | S k' => i mod 10 + digit_sum k' (i / 10)
  end.


(** ** The list of images *)

(** File names are strings of bytes.  [str.lower] on them: the capital
    letters of ASCII become small, every other byte stays (the bytes of a
    character outside ASCII are not letters of ASCII, and lower-casing such a
    character yields none of the letters of the extensions below). *)
Definition lower_ascii (c : ascii) : ascii :=
  let n := nat_of_ascii c in
  if (65 <=? n) && (n <=? 90) then ascii_of_nat (n + 32) else c.

Fixpoint lower (s : string) : string :=
  match s with
  | EmptyString => EmptyString
  | String c s' => String (lower_ascii c) (lower s')
  end.

(** [s.endswith(suffix)]: a tail of [s] is [suffix]. *)
Fixpoint endswith (s suffix : string) : bool :=
  (s =? suffix)%string ||
  match s with
  | EmptyString => false
  | String _ s' => endswith s' suffix
  end.

(** [f.lower().endswith(('.jpg', '.jpeg', '.png'))], line 357 *)
Definition is_image (f : string) : bool :=
  existsb (endswith (lower f)) [".jpg"; ".jpeg"; ".png"].

(** [sorted] on a list of strings: ascending in the order of the code
    points, which on strings of bytes is [String.leb]. *)
Fixpoint insert_sorted (x : string) (l : list string) : list string :=
  match l with
  | [] => [x]
  | y :: l' => if String.leb x y then x :: l else y :: insert_sorted x l'
  end.

Fixpoint sorted (l : list string) : list string :=
  match l with
  | [] => []
  | x :: l' => insert_sorted x (sorted l')
  end.

(** The JSON object that [images_list] returns. *)
Record images_json := {
  json_images : list string;
  json_error : option string
}.

(** [images_list], lines 354-361; [listdir] is what [os.listdir(image_dir)]
    gives: the entries of the directory in any order, or the text of the
    exception it raises. *)
Definition images_list (listdir : string + list string) : images_json :=
  match listdir with
  | inr entries =>
      {| json_images := sorted (filter is_image entries); json_error := None |}
  | inl e => {| json_images := []; json_error := Some e |}
  end.

(** The images that a capture task with the timestamp [ts] has written when
    its counter stands behind [n]. *)
Definition written (ts : string) (n : nat) : list string :=
  map (image_name ts) (seq 1 n).

(** [a <= b] on strings. *)
Definition before (a b : string) : Prop := String.leb a b = true.

(** The first value of [img_count] that [:04d] writes with five digits. *)
Definition five_digits : nat := 10000.

#[global] Arguments five_digits : simpl never.

(** ** Stopping a capture task *)

(** With the flag cleared: how many images a capture task can still write,
    and within how many of its own steps it has ended. *)
Definition rec_budget (pc : rec_pc) : nat :=
  match pc with
  | R_Read _ _ | R_Stamp _ _ => 1
  | _ => 0
  end.

Definition rec_dist (pc : rec_pc) : nat :=
  match pc with
  | R_Start | R_Read _ _ => 4
  | R_Open | R_Stamp _ _ => 3
  | R_Loop _ _ => 2
  | R_Release => 1
  | R_Returned | R_Died => 0
  end.

(** A run is started and its capture task (thread 2) has read a frame; then
    a stop request is served (thread 3). *)
Definition stop_after_read : list label :=
  [Arrive (PostIndex ActStart)] ++ runs 0 3 ++ runs 1 2 ++ runs 2 4 ++
  [Arrive (PostIndex ActStop)] ++ runs 3 2.

(** ** What [last_pin] and [running] hold *)







(** The strings of ASCII.  On one of their characters [int] converts the ten
    digits and raises [ValueError] for everything else, and each character is
    one byte. *)
Definition is_ascii (s : string) : bool :=
  forallb (fun c => nat_of_ascii c <? 128) (list_ascii_of_string s).

(** * Properties *)

(** ** The actuator layer *)

Lemma bind_ok {A B} (m : io A) (k : A -> io B) h a h1 t1 r h2 t2 :
  m h = (inr a, h1, t1) -> k a h1 = (r, h2, t2) ->
  bind m k h = (r, h2, t1 ++ t2).
Proof. intros Hm Hk. unfold bind. rewrite Hm, Hk. reflexivity. Qed.

Lemma bind_raise {A B} (m : io A) (k : A -> io B) h e h1 t1 :
  m h = (inl e, h1, t1) -> bind m k h = (inl e, h1, t1).
Proof. intros Hm. unfold bind. rewrite Hm. reflexivity. Qed.

Lemma send_light_pulse_ready l :
  send_light_pulse (ready l) = (inr tt, ready LOW, pulse).
Proof. reflexivity. Qed.

Lemma send_light_pulse_not_ready h :
  channel_ready h = false -> send_light_pulse h = (inl RuntimeError, h, []).
Proof.
  intros H. unfold send_light_pulse.
  apply bind_raise. unfold GPIO_output. rewrite H. reflexivity.
Qed.

(** The inner loop of line 213: [d] pulses with their gaps; the line is low
    afterwards when at least one pulse was sent and untouched otherwise. *)
Lemma pulses_ready d : forall a l,
  for_each (seq a d) (fun _ => send_light_pulse ;; time_sleep 100) (ready l)
  = (inr tt, ready (match d with 0 => l | S _ => LOW end), digit_pulses d).
Proof.
  induction d as [|d IH]; intros a l; [reflexivity|].
  cbn [seq for_each].
  erewrite bind_ok; [| reflexivity | apply (IH (S a) LOW)].
  destruct d; reflexivity.
Qed.

Lemma actuator_app t1 t2 : actuator (t1 ++ t2) = actuator t1 ++ actuator t2.
Proof. apply filter_app. Qed.

Lemma actuator_digit_pulses d : actuator (digit_pulses d) = digit_pulses d.
Proof.
  induction d as [|d IH]; [reflexivity|].
  unfold digit_pulses in *. cbn [repeat concat].
  rewrite actuator_app, IH. reflexivity.
Qed.

Lemma digit_round_ready i ch d l :
  digit_of_ascii ch = Some d ->
  exists t,
    digit_round i ch (ready l)
    = (inr tt, ready (match d with 0 => l | S _ => LOW end), t) /\
    actuator t = digit_pulses d ++ (if i <? 3 then [Sleep 3100] else []).
Proof.
  intros Hd. unfold digit_round, int. rewrite Hd.
  destruct (i <? 3); eexists; split.
  1, 3: eapply bind_ok; [reflexivity|];
        eapply bind_ok; [reflexivity|];
        eapply bind_ok; [apply pulses_ready|]; reflexivity.
  all: unfold actuator; cbn [app filter is_log negb];
       rewrite filter_app; fold (actuator (digit_pulses d));
       rewrite actuator_digit_pulses; reflexivity.
Qed.

Lemma digit_of_ascii_bound ch d : digit_of_ascii ch = Some d -> d <= 9.
Proof.
  unfold digit_of_ascii.
  destruct (48 <=? nat_of_ascii ch) eqn:H1; [|discriminate].
  destruct (nat_of_ascii ch <=? 57) eqn:H2; [|discriminate].
  cbn. intros [= <-]. apply Nat.leb_le in H2. lia.
Qed.

(** [send_pin] on four decimal characters and a ready channel. *)
Lemma send_pin_digits (c0 c1 c2 c3 : ascii) (d0 d1 d2 d3 : nat) (l : level) :
  digit_of_ascii c0 = Some d0 ->
  digit_of_ascii c1 = Some d1 ->
  digit_of_ascii c2 = Some d2 ->
  digit_of_ascii c3 = Some d3 ->
  exists t,
    send_pin (String c0 (String c1 (String c2 (String c3 EmptyString))))
      (ready l) = (inr tt, ready LOW, t) /\
    actuator t =
      pulse ++ [Sleep 1000] ++
      digit_pulses d0 ++ [Sleep 3100] ++
      digit_pulses d1 ++ [Sleep 3100] ++
      digit_pulses d2 ++ [Sleep 3100] ++
      digit_pulses d3.
Proof.
  intros H0 H1 H2 H3.
  destruct (digit_round_ready 0 c0 d0 LOW H0) as (t0 & E0 & A0).
  destruct (digit_round_ready 1 c1 d1 LOW H1) as (t1 & E1 & A1).
  destruct (digit_round_ready 2 c2 d2 LOW H2) as (t2 & E2 & A2).
  destruct (digit_round_ready 3 c3 d3 LOW H3) as (t3 & E3 & A3).
  assert (L : forall d, match d with 0 => LOW | S _ => LOW end = LOW)
    by (intros []; reflexivity).
  rewrite L in E0, E1, E2, E3.
  eexists. split.
  - unfold send_pin.
    eapply bind_ok; [reflexivity|].
    eapply bind_ok; [apply send_light_pulse_ready|].
    eapply bind_ok; [reflexivity|].
    eapply bind_ok; [|reflexivity].
    cbn [list_ascii_of_string enumerate length seq combine for_each].
    eapply bind_ok; [exact E0|].
    eapply bind_ok; [exact E1|].
    eapply bind_ok; [exact E2|].
    eapply bind_ok; [exact E3|].
    reflexivity.
  - rewrite !actuator_app, A0, A1, A2, A3. cbn.
    rewrite <- !app_assoc. cbn. rewrite !app_nil_r. reflexivity.
Qed.

(** C1. For a code of four decimal characters whose digits have the values
    d0 d1 d2 d3 and a ready output channel, send_pin returns normally and
    what it does on the wire is: one start pulse (high 200 ms, low 300 ms),
    a 1.0 s settle delay, then for each digit in order exactly d pulses, each
    followed by a 100 ms gap (none for the digit 0), with a 3.1 s wait after
    each of the first three digits and none after the fourth. *)
Theorem send_pin_pulse_sequence :
  forall (c0 c1 c2 c3 : ascii) (d0 d1 d2 d3 : nat) (l : level),
    digit_of_ascii c0 = Some d0 ->
    digit_of_ascii c1 = Some d1 ->
    digit_of_ascii c2 = Some d2 ->
    digit_of_ascii c3 = Some d3 ->
    exists h t,
      send_pin (String c0 (String c1 (String c2 (String c3 EmptyString))))
        (ready l) = (inr tt, h, t) /\
      line h = LOW /\
      d0 <= 9 /\ d1 <= 9 /\ d2 <= 9 /\ d3 <= 9 /\
      actuator t =
        pulse ++ [Sleep 1000] ++
        digit_pulses d0 ++ [Sleep 3100] ++
        digit_pulses d1 ++ [Sleep 3100] ++
        digit_pulses d2 ++ [Sleep 3100] ++
        digit_pulses d3.
Proof.
  intros c0 c1 c2 c3 d0 d1 d2 d3 l H0 H1 H2 H3.
  destruct (send_pin_digits c0 c1 c2 c3 d0 d1 d2 d3 l H0 H1 H2 H3)
    as (t & E & A).
  exists (ready LOW), t.
  repeat split; try assumption;
    eapply digit_of_ascii_bound; eassumption.
Qed.

Lemma send_pin_pulse_sequence_witness :
  exists h t,
    send_pin "1203" (ready HIGH) = (inr tt, h, t) /\
    line h = LOW /\
    1 <= 9 /\ 2 <= 9 /\ 0 <= 9 /\ 3 <= 9 /\
    actuator t =
      pulse ++ [Sleep 1000] ++
      digit_pulses 1 ++ [Sleep 3100] ++
      digit_pulses 2 ++ [Sleep 3100] ++
      digit_pulses 0 ++ [Sleep 3100] ++
      digit_pulses 3.
Proof.
  apply (send_pin_pulse_sequence "1" "2" "0" "3" 1 2 0 3 HIGH);
    reflexivity.
Defined.

(** ** Schedules, pools and histories *)

Lemma exec_app c l1 l2 : exec c (l1 ++ l2) = exec (exec c l1) l2.
Proof. apply fold_left_app. Qed.

Lemma exec_snoc c ls l : exec c (ls ++ [l]) = step (exec c ls) l.
Proof. rewrite exec_app. reflexivity. Qed.

Lemma reachable_exec c0 ls : reachable c0 (exec c0 ls).
Proof.
  induction ls as [|l ls IH] using rev_ind; [constructor|].
  rewrite exec_snoc. now constructor.
Qed.

Lemma reachable_trans c0 c1 c2 :
  reachable c0 c1 -> reachable c1 c2 -> reachable c0 c2.
Proof. intros H1 H2. induction H2; [assumption | now constructor]. Qed.

Lemma dead_step c l : alive c = false -> step c l = c.
Proof. intros H. unfold step. rewrite H. reflexivity. Qed.

Lemma dead_exec c ls : alive c = false -> exec c ls = c.
Proof.
  intros H. induction ls as [|l ls IH] using rev_ind; [reflexivity|].
  rewrite exec_snoc, IH. now apply dead_step.
Qed.

Lemma nth_error_update_eq {A} (l : list A) n x :
  n < length l -> nth_error (update n x l) n = Some x.
Proof.
  revert n. induction l as [|y l IH]; intros [|n] H; cbn in *; try lia.
  - reflexivity.
  - apply IH. lia.
Qed.

Lemma nth_error_update_neq {A} (l : list A) n m x :
  n <> m -> nth_error (update n x l) m = nth_error l m.
Proof.
  revert n m. induction l as [|y l IH]; intros [|n] [|m] H; cbn; try reflexivity.
  - congruence.
  - apply IH. congruence.
Qed.

Lemma length_update {A} (l : list A) n x : length (update n x l) = length l.
Proof.
  revert n. induction l as [|y l IH]; intros [|n]; cbn; try reflexivity.
  now rewrite IH.
Qed.

Lemma events_of_app a l1 l2 :
  events_of a (l1 ++ l2) = events_of a l1 ++ events_of a l2.
Proof. unfold events_of. now rewrite filter_app, map_app. Qed.

Lemma actor_eqb_refl a : actor_eqb a a = true.
Proof. destruct a; cbn; [reflexivity | apply Nat.eqb_refl]. Qed.

Lemma actor_eqb_eq a b : actor_eqb a b = true <-> a = b.
Proof.
  destruct a, b; cbn; split; intros H; try congruence; try discriminate.
  - apply Nat.eqb_eq in H. now subst.
  - injection H as ->. apply Nat.eqb_refl.
Qed.

Lemma events_of_tag_same a l : events_of a (tag a l) = l.
Proof.
  unfold events_of, tag. induction l as [|e l IH]; [reflexivity|].
  cbn. rewrite actor_eqb_refl. cbn. now rewrite IH.
Qed.

Lemma events_of_tag_other a b l : a <> b -> events_of a (tag b l) = [].
Proof.
  intros H. unfold events_of, tag. induction l as [|e l IH]; [reflexivity|].
  cbn. destruct (actor_eqb b a) eqn:E; [|exact IH].
  apply actor_eqb_eq in E. congruence.
Qed.


Lemma in_history c x : In x (history c) <-> In x (trace c).
Proof. unfold history. symmetry. apply in_rev. Qed.

Lemma step_stepped c l : stepped c l (step c l).
Proof.
  unfold step. destruct (alive c) eqn:Ha; cbn [negb]; [|constructor].
  destruct l as [r | t o | p].
  - now constructor.
  - destruct (nth_error (pool c) t) as [th|] eqn:Hn; [|constructor].
    destruct (thread_step _ o th (g c) (hw c)) as [out|] eqn:Hs; [|constructor].
    now apply st_run with (th := th).
  - destruct (shutdown p (g c) (hw c)) as [[s1 h1] t] eqn:Hs.
    now apply st_shutdown.
Qed.

Lemma history_run t l tr :
  rev (rev (tag (Thr t) l) ++ tr) = rev tr ++ tag (Thr t) l.
Proof. now rewrite rev_app_distr, rev_involutive. Qed.

(** A thread forks at most one thread, which starts at its entry. *)
Lemma child_entry fresh o th s h out c :
  thread_step fresh o th s h = Some out -> child out = Some c ->
  c = Brute B_Start None \/ c = Recorder R_Start.
Proof.
  unfold thread_step, handler_step, brute_step, recorder_step, query_step,
    goto, fork.
  intros H Hc.
  repeat match type of H with
         | context [match ?x with _ => _ end] => destruct x
         end;
    try discriminate; injection H as <-; cbn in Hc;
    try discriminate; injection Hc as <-; auto.
Qed.

(** A thread that is not in the pool yet has no events. *)
Lemma unborn_silent c0 c :
  pool c0 = [] -> trace c0 = [] -> reachable c0 c ->
  forall t, length (pool c) <= t -> events_of (Thr t) (history c) = [].
Proof.
  intros Hp Ht Hr. induction Hr as [|c l Hr IH].
  - intros t _. unfold history. now rewrite Ht.
  - intros t. destruct (step_stepped c l) as [l | r Ha | u o th out Ha Hn Hs | p s1 h1 tr Ha Hs];
      cbn [pool trace]; unfold history; cbn [trace]; fold (history c).
    + apply IH.
    + rewrite length_app. cbn. intros H. apply IH. lia.
    + rewrite length_app, length_update. intros H.
      rewrite history_run, events_of_app, IH by lia.
      apply events_of_tag_other.
      assert (u < length (pool c)) by (apply nth_error_Some; congruence).
      intros [= ->]. lia.
    + intros H. rewrite rev_app_distr, rev_involutive, events_of_app, IH by lia.
      now apply events_of_tag_other.
Qed.

Lemma nth_error_snoc {A} (l : list A) x n y :
  nth_error (l ++ [x]) n = Some y ->
  nth_error l n = Some y \/ (n = length l /\ y = x).
Proof.
  intros H. destruct (Nat.lt_ge_cases n (length l)) as [Hlt|Hge].
  - left. now rewrite nth_error_app1 in H.
  - right. rewrite nth_error_app2 in H by assumption.
    destruct (n - length l) as [|k] eqn:E; cbn in H.
    + injection H as <-. split; [lia | reflexivity].
    + now destruct k.
Qed.

(** How one step looks from one thread: nothing happened to it, it ran, or
    it was just created. *)
Lemma thread_view c0 c l t th1 :
  pool c0 = [] -> trace c0 = [] -> reachable c0 c ->
  nth_error (pool (step c l)) t = Some th1 ->
  (nth_error (pool c) t = Some th1 /\
   events_of (Thr t) (history (step c l)) = events_of (Thr t) (history c))
  \/ (exists o th out,
        l = Run t o /\ alive c = true /\
        nth_error (pool c) t = Some th /\
        thread_step (length (pool c)) o th (g c) (hw c) = Some out /\
        th1 = th' out /\
        events_of (Thr t) (history (step c l))
        = events_of (Thr t) (history c) ++ evs out /\
        g (step c l) = g' out /\ hw (step c l) = hw' out)
  \/ (t = length (pool c) /\
      events_of (Thr t) (history (step c l)) = [] /\
      (th1 = Brute B_Start None \/ th1 = Recorder R_Start \/
       exists r, th1 = serve r)).
Proof.
  intros Hp Ht Hr.
  pose proof (unborn_silent c0 c Hp Ht Hr) as Hsil.
  destruct (step_stepped c l) as [l | r Ha | u o th out Ha Hn Hs | p s1 h1 tr Ha Hs];
    cbn [pool]; unfold history; cbn [trace g hw]; fold (history c); intros H.
  - left. now split.
  - apply nth_error_snoc in H as [H | [-> ->]].
    + left. now split.
    + right. right. split; [reflexivity|]. split; [now apply Hsil|]. eauto.
  - assert (Hu : u < length (pool c)) by (apply nth_error_Some; congruence).
    rewrite history_run, events_of_app.
    destruct (Nat.eq_dec u t) as [->|Hne].
    + right. left. exists o, th, out.
      rewrite nth_error_app1 in H by now rewrite length_update.
      rewrite nth_error_update_eq in H by assumption. injection H as <-.
      rewrite events_of_tag_same. repeat split; auto.
    + rewrite events_of_tag_other, app_nil_r by congruence.
      destruct (child out) as [ch|] eqn:Hch; cbn [opt_list] in H.
      * apply nth_error_snoc in H as [H | [-> ->]].
        -- left. rewrite nth_error_update_neq in H by assumption. now split.
        -- right. right. rewrite length_update.
           split; [reflexivity|]. split; [now apply Hsil|].
           destruct (child_entry _ _ _ _ _ _ _ Hs Hch); auto.
      * rewrite app_nil_r, nth_error_update_neq in H by assumption.
        left. now split.
  - left. split; [assumption|].
    rewrite rev_app_distr, rev_involutive, events_of_app.
    rewrite (events_of_tag_other (Thr t) Main) by discriminate.
    now rewrite app_nil_r.
Qed.

(** ** The events of a run *)

Lemma rounds_S k : rounds (S k) = rounds k ++ round k.
Proof.
  unfold rounds. rewrite seq_S, flat_map_app. cbn [flat_map Nat.add].
  now rewrite app_nil_r.
Qed.

Lemma code_space_leb i : (code_space <=? i) = false <-> i < code_space.
Proof. rewrite Nat.leb_gt. reflexivity. Qed.

Ltac ran Hs Ht :=
  injection Hs as <-; cbn [th' evs g' hw' child] in *; injection Ht as <- <-.

Ltac shape n body :=
  exists n, body; rewrite <- ?app_assoc;
  split; [reflexivity|]; split; [reflexivity|]; cbn [body_at].

Lemma brute_step_trace fresh pc r s h out pc1 r1 ev :
  brute_step fresh pc r s h = Some out ->
  th' out = Brute pc1 r1 ->
  brute_trace pc r ev ->
  brute_trace pc1 r1 (ev ++ evs out).
Proof.
  intros Hs Ht Hinv.
  destruct pc; unfold brute_step, goto, fork in Hs; cbn beta iota zeta in Hs;
    cbn [brute_trace body_at] in Hinv.
  - (* B_Start *)
    ran Hs Ht. destruct Hinv as [-> ->]. now split.
  - (* B_SpawnRec *)
    ran Hs Ht. destruct Hinv as [-> ->]. exists fresh. now split.
  - (* B_LogStart *)
    ran Hs Ht. destruct Hinv as (n & -> & ->).
    exists n, []. repeat split. apply Nat.le_0_l.
  - (* B_Check *)
    destruct Hinv as (n & body & -> & -> & Hi & ->).
    destruct (code_space <=? i) eqn:E.
    + ran Hs Ht. rewrite app_nil_r. shape n (rounds i).
      apply Nat.leb_le in E.
      replace i with code_space by lia. constructor.
    + apply code_space_leb in E.
      destruct (running s); ran Hs Ht.
      * rewrite app_nil_r. shape n (rounds i). now split.
      * shape n (rounds i ++ [Log MsgBruteStoppedByUser]). now constructor.
  - (* B_SetPin *)
    ran Hs Ht. destruct Hinv as (n & body & -> & -> & Hi & ->).
    shape n (rounds i ++ announce i). now split.
  - (* B_Send *)
    destruct Hinv as (n & body & -> & -> & Hi & ->).
    destruct (send_pin (fmt04d i) h) as [[[e|[]] h1] tr]; ran Hs Ht;
      shape n (rounds i ++ attempt i); unfold attempt;
      rewrite <- ?app_assoc.
    + exists i. now split.
    + now split.
  - (* B_Pause *)
    ran Hs Ht. destruct Hinv as (n & body & -> & -> & Hi & ->).
    exists n, (rounds (S i)). split; [reflexivity|]. split.
    + rewrite rounds_S. unfold round. now rewrite <- !app_assoc.
    + split; [lia | reflexivity].
  - (* B_Except *)
    ran Hs Ht. destruct Hinv as (n & body & -> & -> & i & Hi & ->).
    shape n (rounds i ++ attempt i ++ [Log (MsgBruteError e)]).
    now constructor.
  - (* B_FinRunning *)
    ran Hs Ht. destruct Hinv as (n & body & -> & -> & Hl).
    shape n (body ++ [SetRunning false]). now exists body.
  - (* B_FinJoin *)
    destruct Hinv as (n & body & -> & -> & lp & Hl & ->).
    ran Hs Ht. shape n (lp ++ [SetRunning false; Join n 5000]). now exists lp.
  - (* B_FinOutput *)
    destruct Hinv as (n & body & -> & -> & lp & Hl & ->).
    unfold GPIO_output in Hs.
    destruct (channel_ready h); ran Hs Ht.
    + shape n (lp ++ [SetRunning false; Join n 5000; Output LOW]).
      now exists lp.
    + shape n (lp ++ [SetRunning false; Join n 5000; OutputFailed LOW]).
      now exists lp.
  - (* B_FinLog *)
    ran Hs Ht. destruct Hinv as (n & body & -> & -> & lp & Hl & ->).
    shape n (lp ++ epilogue n). now exists lp.
  - discriminate.
  - discriminate.
Qed.

(** The events of every run thread of every reachable configuration have
    the shape that belongs to its program point. *)
Lemma brute_trace_inv cam ok c :
  reachable (boot cam ok) c ->
  forall t pc r,
    nth_error (pool c) t = Some (Brute pc r) ->
    brute_trace pc r (events_of (Thr t) (history c)).
Proof.
  intros Hr. induction Hr as [|c l Hr IH]; intros t pc r H.
  - now destruct t.
  - apply (thread_view (boot cam ok)) in H; [|reflexivity|reflexivity|assumption].
    destruct H as [[H ->] | [(o & th & out & -> & Ha & Hn & Hs & Ht & -> & _) | (_ & -> & Hb)]].
    + now apply IH.
    + destruct th as [a hpc | pc0 r0 | rpc | b]; cbn in Hs.
      * unfold handler_step, goto, fork in Hs.
        repeat match type of Hs with
               | context [match ?x with _ => _ end] => destruct x
               end; try discriminate; injection Hs as <-; discriminate.
      * eapply brute_step_trace; eauto.
      * unfold recorder_step, goto in Hs.
        repeat match type of Hs with
               | context [match ?x with _ => _ end] => destruct x
               end; try discriminate; injection Hs as <-; discriminate.
      * unfold query_step, goto in Hs.
        destruct b; try discriminate; injection Hs as <-; discriminate.
    + destruct Hb as [Hb | [Hb | [[a|] Hb]]]; try discriminate.
      injection Hb as -> ->. now split.
Qed.

(** ** The current code is never cleared *)

Lemma GPIO_output_cases l h :
  (channel_ready h = true /\
   GPIO_output l h = (inr tt, {| channel_ready := true; line := l |}, [Output l]))
  \/ (channel_ready h = false /\ GPIO_output l h = (inl RuntimeError, h, [])).
Proof. unfold GPIO_output. destruct (channel_ready h); auto. Qed.

(** Case analysis on one step of one thread. *)
Ltac step_cases Hs :=
  unfold thread_step, handler_step, brute_step, recorder_step, query_step,
    goto, fork in Hs;
  try match type of Hs with
      | context [GPIO_output ?l ?h] =>
          let E := fresh "E" in
          destruct (GPIO_output_cases l h) as [[? E]|[? E]];
          rewrite E in Hs; clear E
      end;
  repeat match type of Hs with
         | context [match ?x with _ => _ end] => destruct x eqn:?
         end;
  try discriminate; injection Hs as <-; cbn [th' evs g' hw' child] in *.


Lemma cleanup_last_pin s h : last_pin (fst (fst (cleanup s h))) = last_pin s.
Proof.
  unfold cleanup, GPIO_output. cbn.
  destruct (camera s); destruct (channel_ready h); reflexivity.
Qed.

Lemma cleanup_times_last_pin k : forall s h,
  last_pin (fst (fst (cleanup_times k s h))) = last_pin s.
Proof.
  induction k as [|k IH]; intros s h; [reflexivity|].
  cbn [cleanup_times].
  pose proof (cleanup_last_pin s h) as H1.
  destruct (cleanup s h) as [[s1 h1] t1]. cbn in H1.
  pose proof (IH s1 h1) as H2.
  destruct (cleanup_times k s1 h1) as [[s2 h2] t2]. cbn in *. congruence.
Qed.

Lemma shutdown_last_pin p s h : last_pin (fst (fst (shutdown p s h))) = last_pin s.
Proof.
  unfold shutdown.
  pose proof (cleanup_times_last_pin (cleanups_on p) s h) as H.
  destruct (cleanup_times (cleanups_on p) s h) as [[s1 h1] t]. exact H.
Qed.



(** ** The code is assigned before it is sent *)

Lemma announced_app ev l :
  announced ev -> (forall p, ~ In (CallSendPin p) l) -> announced (ev ++ l).
Proof.
  intros Ha Hl pre p post E.
  apply app_eq_app in E as [l' [[E1 E2] | [E1 E2]]].
  - destruct l' as [|x l'']; cbn in E2.
    + exfalso. apply (Hl p). rewrite <- E2. now left.
    + injection E2 as <- _. now apply (Ha pre p l'').
  - exfalso. apply (Hl p). rewrite E2. apply in_or_app. right. now left.
Qed.

Lemma announced_call ev0 p :
  announced (ev0 ++ [SetLastPin p; Log (MsgTestPin p)]) ->
  announced ((ev0 ++ [SetLastPin p; Log (MsgTestPin p)]) ++ [CallSendPin p]).
Proof.
  intros Ha pre q post E.
  apply app_eq_app in E as [l' [[E1 E2] | [E1 E2]]].
  - destruct l' as [|x l'']; cbn in E2.
    + injection E2 as -> _. rewrite app_nil_r in E1. subst pre. now exists ev0.
    + injection E2 as <- _. now apply (Ha pre q l'').
  - destruct l' as [|x l'']; cbn in E2.
    + injection E2 as -> _. rewrite app_nil_r in E1. subst pre. now exists ev0.
    + injection E2 as _ E2. now destruct l''.
Qed.

Lemma brute_step_announced fresh pc r s h out ev :
  brute_step fresh pc r s h = Some out ->
  brute_trace pc r ev -> announced ev -> announced (ev ++ evs out).
Proof.
  intros Hs Ht Ha.
  destruct pc; unfold brute_step, goto, fork in Hs; cbn beta iota zeta in Hs;
    cbn [brute_trace body_at] in Ht;
    try (destruct (send_pin (fmt04d i) h) as [[[e|[]] h1] tr]);
    try (destruct (GPIO_output_cases LOW h) as [[? E]|[? E]]; rewrite E in Hs);
    try (destruct (code_space <=? i)); try (destruct (running s));
    try (destruct r); try discriminate;
    injection Hs as <-; cbn [evs];
    try (apply announced_app; [assumption|];
         intros ? Hp; repeat (destruct Hp as [Hp|Hp]; [discriminate|]);
         exact Hp).
  all: destruct Ht as (? & body & _ & -> & Hi & ->);
    unfold announce in *; rewrite !app_assoc in *; now apply announced_call.
Qed.

Lemma announced_inv cam ok c :
  reachable (boot cam ok) c ->
  forall t pc r,
    nth_error (pool c) t = Some (Brute pc r) ->
    announced (events_of (Thr t) (history c)).
Proof.
  intros Hr. induction Hr as [|c l Hr IH]; intros t pc r H.
  - now destruct t.
  - apply (thread_view (boot cam ok)) in H; [|reflexivity|reflexivity|assumption].
    destruct H as [[H ->] | [(o & th & out & -> & Ha & Hn & Hs & Ht & -> & _) | (_ & -> & Hb)]].
    + now apply IH with (pc := pc) (r := r).
    + destruct th as [a hpc | pc0 r0 | rpc | b].
      * exfalso. step_cases Hs; discriminate.
      * eapply brute_step_announced; [exact Hs| |].
        -- now apply (brute_trace_inv cam ok c Hr t).
        -- now apply IH with (pc := pc0) (r := r0).
      * exfalso. step_cases Hs; discriminate.
      * exfalso. step_cases Hs; discriminate.
    + intros pre p post E. now destruct pre.
Qed.

(** C10 (as amended). In the events of a run, every call of send_pin for a
    code comes directly after the assignment of that code to last_pin and
    the log line announcing it: the current code is updated before the
    transmission of that code begins. *)
Theorem code_assigned_before_send :
  forall cam ok ls t pc r pre p post,
    pc_of (exec (boot cam ok) ls) t = Some (Brute pc r) ->
    events_of (Thr t) (history (exec (boot cam ok) ls))
    = pre ++ CallSendPin p :: post ->
    exists pre', pre = pre' ++ [SetLastPin p; Log (MsgTestPin p)].
Proof.
  intros cam ok ls t pc r pre p post H E.
  exact (announced_inv cam ok _ (reachable_exec _ ls) t pc r H pre p post E).
Qed.

Lemma code_assigned_before_send_witness :
  exists pre',
    [SetRunning true; Spawn 2; Log MsgBruteStarted;
     SetLastPin "0000"; Log (MsgTestPin "0000")]
    = pre' ++ [SetLastPin "0000"; Log (MsgTestPin "0000")].
Proof.
  apply (code_assigned_before_send camera_ok true one_code 1 (B_Check 1)
           (Some 2) _ "0000" [Sleep 3000]);
    vm_compute; reflexivity.
Defined.

(** C10, counterexample.  The status query answers with the code 0000
    while no call of send_pin has been made at all: the run has assigned
    last_pin (line 299) and not yet reached line 302. *)
Lemma code_observed_before_its_send :
  last (history (exec (boot camera_ok true) query_before_send))
    (Main, ProcessExit)
  = (Thr 3, Observe (Some "0000") true) /\
  sends (map snd (history (exec (boot camera_ok true) query_before_send))) = [].
Proof. split; vm_compute; reflexivity. Qed.

(** ** An exception in the loop *)

Ltac in_concrete H :=
  repeat (destruct H as [H|H]; [try discriminate|]); try contradiction.

Lemma in_rounds_log m k :
  In (Log m) (rounds k) -> exists i, m = MsgTestPin (fmt04d i).
Proof.
  induction k as [|k IH]; [intros []|].
  rewrite rounds_S. intros H. apply in_app_or in H as [H|H]; [auto|].
  unfold round, attempt, announce in H. cbn in H.
  in_concrete H. injection H as <-. eauto.
Qed.

Lemma loop_exit_error lp e :
  loop_exit lp -> In (Log (MsgBruteError e)) lp ->
  exists i, i < code_space /\
    lp = rounds i ++ attempt i ++ [Log (MsgBruteError e)].
Proof.
  intros [|i Hi|i e0 Hi] H.
  - apply in_rounds_log in H as [i H]. discriminate.
  - apply in_app_or in H as [H|H].
    + apply in_rounds_log in H as [j H]. discriminate.
    + in_concrete H.
  - apply in_app_or in H as [H|H].
    + apply in_rounds_log in H as [j H]. discriminate.
    + unfold attempt, announce in H. cbn in H. in_concrete H.
      injection H as ->. eauto.
Qed.

Lemma body_at_error pc n body e :
  body_at pc n body -> In (Log (MsgBruteError e)) body ->
  exists i tail,
    i < code_space /\ finally_at pc n = Some tail /\
    body = rounds i ++ attempt i ++ [Log (MsgBruteError e)] ++ tail.
Proof.
  intros Hb Hin. destruct pc; cbn [body_at finally_at] in *;
    try contradiction.
  1-5: exfalso.
  1-4: destruct Hb as (_ & ->).
  5: destruct Hb as (i' & _ & ->).
  1-5: repeat (apply in_app_or in Hin as [Hin|Hin]);
       try (apply in_rounds_log in Hin as [j Hin]; discriminate);
       unfold attempt, announce in Hin; cbn in Hin; in_concrete Hin.
  - destruct (loop_exit_error _ _ Hb Hin) as (i & Hi & ->).
    exists i, []. rewrite <- ?app_assoc, ?app_nil_r. auto.
  - destruct Hb as (lp & Hl & ->).
    apply in_app_or in Hin as [Hin|Hin]; [|in_concrete Hin].
    destruct (loop_exit_error _ _ Hl Hin) as (i & Hi & ->).
    exists i. eexists. rewrite <- ?app_assoc. auto.
  - destruct Hb as (lp & Hl & ->).
    apply in_app_or in Hin as [Hin|Hin]; [|in_concrete Hin].
    destruct (loop_exit_error _ _ Hl Hin) as (i & Hi & ->).
    exists i. eexists. rewrite <- ?app_assoc. auto.
  - destruct Hb as (lp & Hl & ->).
    apply in_app_or in Hin as [Hin|Hin]; [|in_concrete Hin].
    destruct (loop_exit_error _ _ Hl Hin) as (i & Hi & ->).
    exists i. eexists. rewrite <- ?app_assoc. auto.
  - destruct Hb as (lp & Hl & ->).
    apply in_app_or in Hin as [Hin|Hin]; [|in_concrete Hin].
    destruct (loop_exit_error _ _ Hl Hin) as (i & Hi & ->).
    exists i. eexists. rewrite <- ?app_assoc. auto.
  - destruct Hb as (lp & Hl & ->).
    apply in_app_or in Hin as [Hin|Hin]; [|in_concrete Hin].
    destruct (loop_exit_error _ _ Hl Hin) as (i & Hi & ->).
    exists i. eexists. rewrite <- ?app_assoc. auto.
Qed.

(** C4 (as amended). If an exception is raised inside the code loop, the
    events of the run are: the rounds completed before, the attempt that
    raised, then the log line of the except clause, and only after it the
    finally block as far as the run has got: the active flag set to false,
    the join of the capture thread with a 5 s timeout, and the low write on
    the line, which is followed by the final log line when it succeeds. *)
Theorem exception_logged_then_finally :
  forall cam ok ls t pc r e,
    pc_of (exec (boot cam ok) ls) t = Some (Brute pc r) ->
    In (Log (MsgBruteError e))
       (events_of (Thr t) (history (exec (boot cam ok) ls))) ->
    exists n i tail,
      r = Some n /\ i < code_space /\ finally_at pc n = Some tail /\
      events_of (Thr t) (history (exec (boot cam ok) ls))
      = prologue n ++ rounds i ++ attempt i ++
        [Log (MsgBruteError e)] ++ tail.
Proof.
  intros cam ok ls t pc r e H Hin.
  pose proof (brute_trace_inv cam ok _ (reachable_exec _ ls) t pc r H) as Ht.
  destruct pc; cbn [brute_trace] in Ht;
    try (destruct Ht as (_ & E); rewrite E in Hin; in_concrete Hin);
    try (destruct Ht as (n & _ & E); rewrite E in Hin; in_concrete Hin).
  all: destruct Ht as (n & body & -> & E & Hb); rewrite E in Hin |- *;
    apply in_app_or in Hin as [Hin|Hin]; [in_concrete Hin|];
    destruct (body_at_error _ _ _ _ Hb Hin) as (k & tail & Hk & Hf & ->);
    exists n, k, tail; auto.
Qed.

Lemma exception_logged_then_finally_witness :
  exists n i tail,
    Some 2 = Some n /\ i < code_space /\
    finally_at (B_Died RuntimeError) n = Some tail /\
    events_of (Thr 1) (history (exec (boot camera_ok false) run_without_gpio))
    = prologue n ++ rounds i ++ attempt i ++
      [Log (MsgBruteError RuntimeError)] ++ tail.
Proof.
  apply (exception_logged_then_finally camera_ok false run_without_gpio 1
           (B_Died RuntimeError) (Some 2) RuntimeError).
  - vm_compute. reflexivity.
  - vm_compute. do 6 right. left. reflexivity.
Defined.

(** C4, counterexample.  The output channel was not set up.  The first
    send_pin raises; the error is logged while the active flag is still
    set and before any low write; the low write of the finally block then
    raises as well, and that exception leaves bruteforce_pins. *)
Lemma error_reported_before_idle :
  events_of (Thr 1) (history (exec (boot camera_ok false) run_without_gpio))
  = [SetRunning true; Spawn 2; Log MsgBruteStarted;
     SetLastPin "0000"; Log (MsgTestPin "0000"); CallSendPin "0000";
     Log (MsgBruteError RuntimeError);
     SetRunning false; Join 2 5000; OutputFailed LOW] /\
  pc_of (exec (boot camera_ok false) run_without_gpio) 1
  = Some (Brute (B_Died RuntimeError) (Some 2)).
Proof. split; vm_compute; reflexivity. Qed.

(** ** The codes of the loop *)

Lemma of_uint_acc_digit k rest acc :
  k <= 9 ->
  Nat.of_uint_acc (decimal_digit k rest) acc = Nat.of_uint_acc rest (k + 10 * acc).
Proof.
  intros Hk.
  do 10 (destruct k as [|k]; [cbn [decimal_digit Nat.of_uint_acc];
                              rewrite Nat.tail_mul_spec; reflexivity|]).
  exfalso. lia.
Qed.

Lemma of_uint_digits d0 d1 d2 d3 :
  d0 <= 9 -> d1 <= 9 -> d2 <= 9 -> d3 <= 9 ->
  Nat.of_uint (decimal_digit d0 (decimal_digit d1 (decimal_digit d2 (decimal_digit d3 Decimal.Nil))))
  = d0 * 1000 + d1 * 100 + d2 * 10 + d3.
Proof.
  intros H0 H1 H2 H3. unfold Nat.of_uint.
  rewrite !of_uint_acc_digit by assumption. cbn [Nat.of_uint_acc]. lia.
Qed.

Lemma string_of_digit k rest :
  k <= 9 ->
  NilEmpty.string_of_uint (decimal_digit k rest)
  = String (decimal_char k) (NilEmpty.string_of_uint rest).
Proof.
  intros Hk.
  do 10 (destruct k as [|k]; [reflexivity|]). exfalso. lia.
Qed.

Lemma nzhead_digit_pos k rest :
  1 <= k <= 9 -> Decimal.nzhead (decimal_digit k rest) = decimal_digit k rest.
Proof.
  intros Hk. destruct k as [|k]; [exfalso; lia|].
  do 9 (destruct k as [|k]; [reflexivity|]). exfalso. lia.
Qed.

Lemma digit_not_nil k rest : decimal_digit k rest <> Decimal.Nil.
Proof. do 10 (destruct k as [|k]; [discriminate|]). discriminate. Qed.

Lemma str_digits_pos k rest :
  1 <= k <= 9 ->
  NilZero.string_of_uint (Decimal.unorm (decimal_digit k rest))
  = String (decimal_char k) (NilEmpty.string_of_uint rest).
Proof.
  intros Hk. unfold Decimal.unorm. rewrite nzhead_digit_pos by assumption.
  rewrite <- string_of_digit by lia.
  pose proof (digit_not_nil k rest) as Hn.
  destruct (decimal_digit k rest) eqn:E; try reflexivity. congruence.
Qed.

Lemma unorm_digit_zero rest :
  Decimal.unorm (decimal_digit 0 rest) = Decimal.unorm rest.
Proof. reflexivity. Qed.

Lemma digit_of_digit_char k : k <= 9 -> digit_of_ascii (decimal_char k) = Some k.
Proof.
  intros Hk. do 10 (destruct k as [|k]; [reflexivity|]). exfalso. lia.
Qed.

Lemma code_space_eq : code_space = 10 * 10 * 10 * 10.
Proof. reflexivity. Qed.

(** [f"{i:04d}"] for an index of the loop, digit by digit. *)
Lemma fmt04d_digits d0 d1 d2 d3 :
  d0 <= 9 -> d1 <= 9 -> d2 <= 9 -> d3 <= 9 ->
  fmt04d (d0 * 1000 + d1 * 100 + d2 * 10 + d3)
  = String (decimal_char d0) (String (decimal_char d1)
      (String (decimal_char d2) (String (decimal_char d3) EmptyString))).
Proof.
  intros H0 H1 H2 H3. unfold fmt04d, str.
  rewrite <- (of_uint_digits d0 d1 d2 d3) by assumption.
  rewrite Unsigned.to_of.
  destruct (Nat.eq_dec d0 0) as [->|N0].
  2: { rewrite str_digits_pos, !string_of_digit by lia. reflexivity. }
  rewrite unorm_digit_zero.
  destruct (Nat.eq_dec d1 0) as [->|N1].
  2: { rewrite str_digits_pos, !string_of_digit by lia. reflexivity. }
  rewrite unorm_digit_zero.
  destruct (Nat.eq_dec d2 0) as [->|N2].
  2: { rewrite str_digits_pos, !string_of_digit by lia. reflexivity. }
  rewrite unorm_digit_zero.
  destruct (Nat.eq_dec d3 0) as [->|N3].
  2: { rewrite str_digits_pos by lia. reflexivity. }
  reflexivity.
Qed.

Lemma fmt04d_code i : i < code_space -> code_value (fmt04d i) = Some i.
Proof.
  rewrite code_space_eq. intros Hi.
  set (d0 := i / 1000). set (d1 := (i / 100) mod 10).
  set (d2 := (i / 10) mod 10). set (d3 := i mod 10).
  assert (E : i = d0 * 1000 + d1 * 100 + d2 * 10 + d3).
  { subst d0 d1 d2 d3.
    pose proof (Nat.div_mod_eq i 10). pose proof (Nat.div_mod_eq (i / 10) 10).
    pose proof (Nat.div_mod_eq (i / 100) 10).
    replace (i / 100) with (i / 10 / 10) in * by
      (rewrite Nat.Div0.div_div; reflexivity).
    replace (i / 1000) with (i / 10 / 10 / 10) by
      (rewrite !Nat.Div0.div_div; reflexivity).
    lia. }
  assert (H0 : d0 <= 9).
  { subst d0. assert (i / 1000 < 10); [|lia].
    apply Nat.Div0.div_lt_upper_bound. lia. }
  assert (H1 : d1 <= 9) by (subst d1; pose proof (Nat.mod_upper_bound (i / 100) 10); lia).
  assert (H2 : d2 <= 9) by (subst d2; pose proof (Nat.mod_upper_bound (i / 10) 10); lia).
  assert (H3 : d3 <= 9) by (subst d3; pose proof (Nat.mod_upper_bound i 10); lia).
  rewrite E at 1. rewrite fmt04d_digits by assumption.
  cbn [code_value]. rewrite !digit_of_digit_char by assumption.
  now rewrite <- E.
Qed.

Lemma code_value_digits s v :
  code_value s = Some v ->
  exists c0 c1 c2 c3 d0 d1 d2 d3,
    s = String c0 (String c1 (String c2 (String c3 EmptyString))) /\
    digit_of_ascii c0 = Some d0 /\ digit_of_ascii c1 = Some d1 /\
    digit_of_ascii c2 = Some d2 /\ digit_of_ascii c3 = Some d3 /\
    v = d0 * 1000 + d1 * 100 + d2 * 10 + d3.
Proof.
  destruct s as [|c0 [|c1 [|c2 [|c3 [|? ?]]]]]; try discriminate.
  cbn [code_value].
  destruct (digit_of_ascii c0) as [d0|] eqn:E0; [|discriminate].
  destruct (digit_of_ascii c1) as [d1|] eqn:E1; [|discriminate].
  destruct (digit_of_ascii c2) as [d2|] eqn:E2; [|discriminate].
  destruct (digit_of_ascii c3) as [d3|] eqn:E3; [|discriminate].
  intros [= <-]. exists c0, c1, c2, c3, d0, d1, d2, d3. auto 10.
Qed.












(** ** A run that is never stopped *)










(** ** Stopping a run *)

Lemma sends_app a b : sends (a ++ b) = sends a ++ sends b.
Proof.
  induction a as [|e a IH]; [reflexivity|].
  destruct e; cbn; rewrite ?IH; reflexivity.
Qed.



Lemma brute_step_none fresh pc r s h :
  brute_step fresh pc r s h = None -> dist pc = 0.
Proof.
  destruct pc; unfold brute_step, goto, fork; cbn beta iota zeta;
    try reflexivity; try discriminate.
  - destruct (code_space <=? i); [|destruct (running s)]; discriminate.
  - destruct (send_pin (fmt04d i) h) as [[[e|[]] h1] tr]; discriminate.
Qed.


Lemma alive_step c l : alive (step c l) = true -> alive c = true.
Proof.
  destruct (alive c) eqn:E; [reflexivity|]. now rewrite dead_step, E.
Qed.

Lemma alive_exec ls : forall c, alive (exec c ls) = true -> alive c = true.
Proof.
  induction ls as [|l ls IH]; intros c H; [assumption|].
  apply alive_step with (l := l). now apply IH.
Qed.


Lemma forallb_early_exit_rounds k :
  forallb (fun e => negb (early_exit_log e)) (rounds k) = true.
Proof.
  induction k as [|k IH]; [reflexivity|].
  now rewrite rounds_S, forallb_app, IH.
Qed.


(** ** A run that is left alone *)









(** The bound of one further code is reached: stopped between the check of
    line 294 and line 302, the run still sends the code 0001. *)
Example one_more_code_after_stop :
  running (g (exec (boot camera_ok true) stop_after_check)) = false /\
  sends (events_of (Thr 1)
           (history (exec (boot camera_ok true) stop_after_check)))
  = ["0000"] /\
  sends (events_of (Thr 1)
           (history (exec (boot camera_ok true) (stop_after_check ++ runs 1 8))))
  = ["0000"; "0001"] /\
  pc_of (exec (boot camera_ok true) (stop_after_check ++ runs 1 8)) 1
  = Some (Brute B_Returned (Some 2)).
Proof. repeat split; vm_compute; reflexivity. Qed.

(** ** The events of a capture task *)

Lemma frames_snoc outs o :
  frames (outs ++ [o]) = frames outs + match o with Some _ => 1 | None => 0 end.
Proof.
  unfold frames. rewrite filter_app, length_app. now destruct o.
Qed.

Lemma ticks_snoc ts outs : forall n o,
  ticks ts n (outs ++ [o])
  = ticks ts n outs ++
    match o with
    | Some label => hit ts (n + frames outs) label
    | None => miss
    end.
Proof.
  induction outs as [|[l|] outs IH]; intros n o; cbn [app ticks].
  - change (frames []) with 0. rewrite Nat.add_0_r.
    destruct o; now rewrite app_nil_r.
  - rewrite IH, <- app_assoc. do 2 f_equal.
    destruct o; [|reflexivity].
    replace (n + 1 + frames outs) with (n + frames (Some l :: outs));
      [reflexivity|]. unfold frames. cbn. lia.
  - rewrite IH, <- app_assoc. reflexivity.
Qed.

Ltac ran1 Hs Ht :=
  injection Hs as <-; cbn [th' evs g' hw' child] in *; injection Ht as <-;
  cbn [rec_trace].

Lemma recorder_step_trace o pc s h out pc1 ev :
  recorder_step o pc s h = Some out ->
  th' out = Recorder pc1 ->
  rec_trace pc ev ->
  rec_trace pc1 (ev ++ evs out).
Proof.
  intros Hs Ht Hinv.
  destruct pc; unfold recorder_step, goto in Hs; cbn beta iota zeta in Hs;
    cbn [rec_trace] in Hinv.
  - (* R_Start *)
    subst ev. destruct (camera s); ran1 Hs Ht; auto.
  - (* R_Open *)
    subst ev. ran1 Hs Ht. exists []. split; reflexivity.
  - (* R_Loop *)
    destruct Hinv as (outs & Hn & ->).
    destruct (running s); ran1 Hs Ht; rewrite app_nil_r; eauto.
  - (* R_Read *)
    destruct Hinv as (outs & Hn & ->).
    destruct (camera s) as [cam|];
      [destruct (isOpened cam && frame_ok o)|]; ran1 Hs Ht.
    + rewrite app_nil_r. eauto.
    + exists (outs ++ [None]). rewrite frames_snoc, ticks_snoc, <- app_assoc.
      split; [lia | reflexivity].
    + rewrite app_nil_r. eauto.
  - (* R_Stamp *)
    destruct Hinv as (outs & Hn & ->). ran1 Hs Ht.
    exists (outs ++ [Some (stamp (last_pin s) (now o))]).
    rewrite frames_snoc, ticks_snoc, <- app_assoc.
    split; [lia|]. subst img_count. reflexivity.
  - (* R_Release *)
    destruct Hinv as (ts & outs & ->). ran1 Hs Ht.
    right. exists ts, outs. now rewrite <- app_assoc.
  - discriminate.
  - discriminate.
Qed.

(** The events of every capture thread of every reachable configuration
    have the shape that belongs to its program point. *)
Lemma rec_trace_inv cam ok c :
  reachable (boot cam ok) c ->
  forall t pc,
    nth_error (pool c) t = Some (Recorder pc) ->
    rec_trace pc (events_of (Thr t) (history c)).
Proof.
  intros Hr. induction Hr as [|c l Hr IH]; intros t pc H.
  - now destruct t.
  - apply (thread_view (boot cam ok)) in H; [|reflexivity|reflexivity|assumption].
    destruct H as [[H ->] | [(o & th & out & -> & Ha & Hn & Hs & Ht & -> & _) | (_ & -> & Hb)]].
    + now apply IH.
    + destruct th as [a hpc | pc0 r0 | rpc | b].
      * exfalso. step_cases Hs; discriminate.
      * exfalso. cbn [thread_step] in Hs. clear - Hs Ht.
        destruct pc0; unfold brute_step, goto, fork in Hs;
          cbn beta iota zeta in Hs;
          repeat match type of Hs with
                 | context [match ?x with _ => _ end] => destruct x
                 end; try discriminate; injection Hs as <-; discriminate.
      * eapply recorder_step_trace; eauto.
      * exfalso. step_cases Hs; discriminate.
    + destruct Hb as [Hb | [Hb | [[a|] Hb]]]; try discriminate.
      injection Hb as ->. reflexivity.
Qed.

Lemma images_app a b : images (a ++ b) = images a ++ images b.
Proof.
  induction a as [|e a IH]; [reflexivity|].
  destruct e; cbn; rewrite ?IH; reflexivity.
Qed.

Lemma count_app p a b : count p (a ++ b) = count p a + count p b.
Proof. unfold count. now rewrite filter_app, length_app. Qed.

Lemma images_ticks ts outs : forall n,
  images (ticks ts n outs) = map (image_name ts) (seq n (frames outs)).
Proof.
  induction outs as [|[l|] outs IH]; intros n; cbn [ticks].
  - reflexivity.
  - rewrite images_app, IH. unfold frames. cbn.
    now rewrite Nat.add_1_r.
  - rewrite images_app, IH. reflexivity.
Qed.

Lemma ticks_counts ts outs : forall n,
  length (images (ticks ts n outs)) + count is_miss (ticks ts n outs)
  = count is_tick (ticks ts n outs) /\
  count is_tick (ticks ts n outs) = length outs /\
  count is_open_video (ticks ts n outs) = 0 /\
  count is_release_video (ticks ts n outs) = 0.
Proof.
  induction outs as [|[l|] outs IH]; intros n; cbn [ticks].
  - repeat split.
  - destruct (IH (n + 1)) as (H1 & H2 & H3 & H4).
    rewrite images_app, length_app, !count_app, H2, H3, H4 in *.
    cbn. repeat split; lia.
  - destruct (IH n) as (H1 & H2 & H3 & H4).
    rewrite images_app, length_app, !count_app, H2, H3, H4 in *.
    cbn. repeat split; lia.
Qed.

(** C7 (as amended). A capture task that opened its video and has returned
    opened exactly one video artifact and released it as its last action
    before the final log line.  It wrote one image per tick on which the
    frame read succeeded, numbered from 1 in capture order; a tick on which
    the read failed is logged and writes no image, so the number of images
    is the number of ticks less the number of failed reads. *)
Theorem capture_artifacts :
  forall cam ok ls t p,
    pc_of (exec (boot cam ok) ls) t = Some (Recorder R_Returned) ->
    In (OpenVideo p) (events_of (Thr t) (history (exec (boot cam ok) ls))) ->
    exists ts outs,
      events_of (Thr t) (history (exec (boot cam ok) ls))
      = opening ts ++ ticks ts 1 outs ++ closing /\
      p = video_name ts /\
      count is_open_video
        (events_of (Thr t) (history (exec (boot cam ok) ls))) = 1 /\
      count is_release_video
        (events_of (Thr t) (history (exec (boot cam ok) ls))) = 1 /\
      images (events_of (Thr t) (history (exec (boot cam ok) ls)))
      = map (image_name ts) (seq 1 (frames outs)) /\
      length (images (events_of (Thr t) (history (exec (boot cam ok) ls))))
      + count is_miss (events_of (Thr t) (history (exec (boot cam ok) ls)))
      = count is_tick (events_of (Thr t) (history (exec (boot cam ok) ls))).
Proof.
  intros cam ok ls t p H Hin.
  pose proof (rec_trace_inv cam ok _ (reachable_exec _ ls) t _ H) as Ht.
  cbn [rec_trace] in Ht. destruct Ht as [E | (ts & outs & E)].
  - rewrite E in Hin. in_concrete Hin.
  - rewrite E in Hin |- *. exists ts, outs.
    destruct (ticks_counts ts outs 1) as (H1 & H2 & H3 & H4).
    rewrite !images_app, !length_app, !count_app, images_ticks, H3, H4.
    rewrite images_ticks in H1.
    assert (Hp : p = video_name ts).
    { apply in_app_or in Hin as [Hin|Hin]; [|apply in_app_or in Hin as [Hin|Hin]].
      - destruct Hin as [Hin|Hin]; [now injection Hin|in_concrete Hin].
      - exfalso. assert (X : count is_open_video (ticks ts 1 outs) <> 0).
        { unfold count. intros X. apply length_zero_iff_nil in X.
          assert (Y : In (OpenVideo p) (filter is_open_video (ticks ts 1 outs)))
            by (apply filter_In; auto).
          now rewrite X in Y. }
        now apply X.
      - in_concrete Hin. }
    cbn. rewrite !app_nil_r. repeat split; auto; lia.
Qed.

Lemma capture_artifacts_witness :
  exists ts outs,
    events_of (Thr 2) (history (exec (boot camera_ok true) capture_with_miss))
    = opening ts ++ ticks ts 1 outs ++ closing /\
    "session_t.avi" = video_name ts /\
    count is_open_video
      (events_of (Thr 2) (history (exec (boot camera_ok true) capture_with_miss)))
    = 1 /\
    count is_release_video
      (events_of (Thr 2) (history (exec (boot camera_ok true) capture_with_miss)))
    = 1 /\
    images
      (events_of (Thr 2) (history (exec (boot camera_ok true) capture_with_miss)))
    = map (image_name ts) (seq 1 (frames outs)) /\
    length (images
      (events_of (Thr 2) (history (exec (boot camera_ok true) capture_with_miss))))
    + count is_miss
        (events_of (Thr 2) (history (exec (boot camera_ok true) capture_with_miss)))
    = count is_tick
        (events_of (Thr 2) (history (exec (boot camera_ok true) capture_with_miss))).
Proof.
  apply (capture_artifacts camera_ok true capture_with_miss 2 "session_t.avi").
  - vm_compute. reflexivity.
  - vm_compute. left. reflexivity.
Defined.

(** C7, counterexample.  The capture task takes one tick while the run is
    active and the frame read fails on it: the miss is logged, the task
    goes on and finalizes its video, and it has written no image for that
    tick. *)
Lemma failed_read_writes_no_image :
  pc_of (exec (boot camera_ok true) capture_with_miss) 2
  = Some (Recorder R_Returned) /\
  events_of (Thr 2) (history (exec (boot camera_ok true) capture_with_miss))
  = [OpenVideo "session_t.avi"; Log (MsgVideoStarted "session_t.avi");
     Log MsgNoFrame; Sleep 3000; VideoRelease; Log MsgVideoStopped] /\
  count is_tick
    (events_of (Thr 2) (history (exec (boot camera_ok true) capture_with_miss)))
  = 1 /\
  images
    (events_of (Thr 2) (history (exec (boot camera_ok true) capture_with_miss)))
  = [].
Proof. repeat split; vm_compute; reflexivity. Qed.

(** ** Start requests *)

Lemma length_filter_update {A} (p : A -> bool) (l : list A) n x y :
  nth_error l n = Some y -> p x = p y ->
  length (filter p (update n x l)) = length (filter p l).
Proof.
  revert n. induction l as [|z l IH]; intros [|n] H E; cbn in *; try discriminate.
  - injection H as ->. rewrite E. now destruct (p y).
  - specialize (IH n H E). destruct (p z); cbn; now rewrite IH.
Qed.

(** C3 (as amended). A start request that reads the active flag as set is
    rejected: it answers without a status, starts neither a code loop nor a
    capture task, leaves the globals and the line as they are, and has
    nothing more to do. *)
Theorem start_rejected_while_flag_set :
  forall c t o,
    alive c = true ->
    pc_of c t = Some (Handler ActStart H_Entry) ->
    running (g c) = true ->
    g (step c (Run t o)) = g c /\
    hw (step c (Run t o)) = hw c /\
    pool (step c (Run t o)) = update t (Handler ActStart H_Done) (pool c) /\
    trace (step c (Run t o)) = (Thr t, Respond None) :: trace c /\
    runs_executing (step c (Run t o)) = runs_executing c /\
    videos_open (step c (Run t o)) = videos_open c /\
    forall o', step (step c (Run t o)) (Run t o') = step c (Run t o).
Proof.
  intros c t o Ha Hn Hrun. unfold pc_of in Hn.
  assert (Ht : t < length (pool c)) by (apply nth_error_Some; congruence).
  assert (E : step c (Run t o)
              = {| g := g c; hw := hw c;
                   pool := update t (Handler ActStart H_Done) (pool c);
                   trace := (Thr t, Respond None) :: trace c;
                   alive := true |}).
  { unfold step. rewrite Ha, Hn. cbn. rewrite Hrun. cbn.
    now rewrite app_nil_r. }
  rewrite E. cbn [g hw pool trace]. repeat split.
  - unfold runs_executing. cbn [pool].
    now apply length_filter_update with (y := Handler ActStart H_Entry).
  - unfold videos_open. cbn [pool].
    now apply length_filter_update with (y := Handler ActStart H_Entry).
  - intros o'. unfold step. cbn [alive negb pool g hw].
    now rewrite nth_error_update_eq.
Qed.

Lemma start_rejected_while_flag_set_witness :
  g (step (exec (boot camera_ok true) start_while_running) (Run 3 quiet))
  = g (exec (boot camera_ok true) start_while_running) /\
  hw (step (exec (boot camera_ok true) start_while_running) (Run 3 quiet))
  = hw (exec (boot camera_ok true) start_while_running) /\
  pool (step (exec (boot camera_ok true) start_while_running) (Run 3 quiet))
  = update 3 (Handler ActStart H_Done)
      (pool (exec (boot camera_ok true) start_while_running)) /\
  trace (step (exec (boot camera_ok true) start_while_running) (Run 3 quiet))
  = (Thr 3, Respond None)
    :: trace (exec (boot camera_ok true) start_while_running) /\
  runs_executing
    (step (exec (boot camera_ok true) start_while_running) (Run 3 quiet))
  = runs_executing (exec (boot camera_ok true) start_while_running) /\
  videos_open
    (step (exec (boot camera_ok true) start_while_running) (Run 3 quiet))
  = videos_open (exec (boot camera_ok true) start_while_running) /\
  forall o',
    step (step (exec (boot camera_ok true) start_while_running) (Run 3 quiet))
      (Run 3 o')
    = step (exec (boot camera_ok true) start_while_running) (Run 3 quiet).
Proof.
  apply (start_rejected_while_flag_set
           (exec (boot camera_ok true) start_while_running) 3 quiet);
    vm_compute; reflexivity.
Defined.

(** C3, counterexample.  Two start requests are served concurrently; both
    read the flag before either spawned run has set it, so both spawn a run.
    Two code loops execute at the same time and two capture tasks hold an
    open video. *)
Lemma two_runs_at_once :
  runs_executing (exec (boot camera_ok true) concurrent_starts) = 2 /\
  videos_open (exec (boot camera_ok true) concurrent_starts) = 2 /\
  pool (exec (boot camera_ok true) concurrent_starts)
  = [Handler ActStart H_Done; Handler ActStart H_Done;
     Brute (B_Pause 0) (Some 4); Brute (B_Pause 0) (Some 5);
     Recorder (R_Loop "t" 1); Recorder (R_Loop "t" 1)].
Proof. repeat split; vm_compute; reflexivity. Qed.

(** ** The camera *)

Lemma thread_step_camera fresh o th s h out :
  thread_step fresh o th s h = Some out ->
  camera s <> None -> camera (g' out) <> None.
Proof.
  intros Hs Hc. step_cases Hs; cbn in *;
    first [assumption | congruence | discriminate].
Qed.

Lemma cleanup_camera s h :
  camera s <> None -> camera (fst (fst (cleanup s h))) <> None.
Proof.
  unfold cleanup. cbn [set_running camera].
  destruct (camera s); [|congruence].
  destruct (GPIO_output LOW h) as [[[e|[]] h1] t]; discriminate.
Qed.

Lemma cleanup_times_camera k : forall s h,
  camera s <> None -> camera (fst (fst (cleanup_times k s h))) <> None.
Proof.
  induction k as [|k IH]; intros s h Hc; [assumption|].
  cbn [cleanup_times].
  pose proof (cleanup_camera s h Hc) as H1.
  destruct (cleanup s h) as [[s1 h1] t1]. cbn in H1.
  pose proof (IH s1 h1 H1) as H2.
  destruct (cleanup_times k s1 h1) as [[s2 h2] t2]. exact H2.
Qed.

(** The camera object, once made, stays. *)
Lemma step_camera c l : camera (g c) <> None -> camera (g (step c l)) <> None.
Proof.
  intros Hc.
  destruct (step_stepped c l) as [l | r Ha | u o th out Ha Hn Hs | p s1 h1 tr Ha Hs];
    cbn [g]; try assumption.
  - eapply thread_step_camera; eauto.
  - unfold shutdown in Hs.
    pose proof (cleanup_times_camera (cleanups_on p) (g c) (hw c) Hc) as H.
    destruct (cleanup_times (cleanups_on p) (g c) (hw c)) as [[s2 h2] t2].
    injection Hs as <- _ _. exact H.
Qed.

(** A thread that needs the camera gets into that state only when a camera
    object exists, and forks only threads that need it too. *)
Lemma thread_step_needs_camera fresh o th s h out :
  thread_step fresh o th s h = Some out ->
  (needs_camera th = true -> camera s <> None) ->
  (needs_camera (th' out) = true -> camera (g' out) <> None) /\
  (forall ch, child out = Some ch -> camera (g' out) <> None).
Proof.
  intros Hs Hc.
  step_cases Hs; cbn in *; split;
    try (intros _; first [now apply Hc | discriminate | congruence]);
    try (intros ? [=]); try discriminate; try (now apply Hc); congruence.
Qed.

Lemma camera_inv cam ok c :
  reachable (boot cam ok) c ->
  forall t th,
    nth_error (pool c) t = Some th -> needs_camera th = true ->
    camera (g c) <> None.
Proof.
  intros Hr. induction Hr as [|c l Hr IH]; intros t th H Hnc.
  - now destruct t.
  - destruct (step_stepped c l) as [l | r Ha | u o th0 out Ha Hn Hs | p s1 h1 tr Ha Hs].
    + eauto.
    + cbn [pool g] in *. apply nth_error_snoc in H as [H | [_ ->]]; [eauto|].
      now destruct r.
    + cbn [pool g] in *.
      assert (Hu : u < length (pool c)) by (apply nth_error_Some; congruence).
      destruct (thread_step_needs_camera _ _ _ _ _ _ Hs (IH u th0 Hn))
        as [H1 H2].
      destruct (Nat.eq_dec u t) as [->|Hne].
      * rewrite nth_error_app1 in H by now rewrite length_update.
        rewrite nth_error_update_eq in H by assumption.
        injection H as <-. auto.
      * destruct (child out) as [ch|] eqn:Hch; cbn [opt_list] in H.
        -- apply nth_error_snoc in H as [H | [_ ->]]; [|eauto].
           rewrite nth_error_update_neq in H by assumption.
           eapply thread_step_camera; eauto.
        -- rewrite app_nil_r, nth_error_update_neq in H by assumption.
           eapply thread_step_camera; eauto.
    + cbn [pool] in H.
      replace {| g := s1; hw := h1; pool := pool c;
                 trace := rev (tag Main tr) ++ trace c; alive := false |}
        with (step c (Shutdown p)).
      * apply step_camera. eauto.
      * unfold step. now rewrite Ha, Hs.
Qed.

(** No capture task ever takes the exit of lines 226-228. *)
Lemma no_camera_exit_unreachable cam ok c :
  reachable (boot cam ok) c ->
  forall t pc,
    nth_error (pool c) t = Some (Recorder pc) ->
    ~ In (Log MsgNoCamera) (events_of (Thr t) (history c)).
Proof.
  intros Hr. induction Hr as [|c l Hr IH]; intros t pc H.
  - now destruct t.
  - apply (thread_view (boot cam ok)) in H; [|reflexivity|reflexivity|assumption].
    destruct H as [[H ->] | [(o & th & out & -> & Ha & Hn & Hs & Ht & -> & _) | (_ & -> & Hb)]].
    + eauto.
    + intros Hin. apply in_app_or in Hin as [Hin|Hin].
      * destruct th as [a hpc | pc0 r0 | rpc | b].
        -- step_cases Hs; discriminate.
        -- cbn [thread_step] in Hs. clear - Hs Ht.
           destruct pc0; unfold brute_step, goto, fork in Hs;
             cbn beta iota zeta in Hs;
             repeat match type of Hs with
                    | context [match ?x with _ => _ end] => destruct x
                    end; try discriminate; injection Hs as <-; discriminate.
        -- now apply (IH t rpc).
        -- step_cases Hs; discriminate.
      * pose proof (camera_inv cam ok c Hr t th Hn) as Hc.
        destruct th as [a hpc | pc0 r0 | rpc | b];
          step_cases Hs; cbn in *; try discriminate;
          try (now apply Hc); in_concrete Hin.
    + intros [].
Qed.

(** C5 (as amended). If init_camera fails during a start request, index
    reports the camera error and starts nothing: no thread is spawned, no
    run executes because of it, and the active flag, last_pin and the line
    are as before.  Hence a run and its capture task only ever exist while a
    camera object exists, and no capture task takes the no-camera exit. *)
Theorem failed_open_aborts_start :
  (forall c t o,
     alive c = true ->
     pc_of c t = Some (Handler ActStart H_Init) ->
     cam_open o <> OpenOk ->
     pool (step c (Run t o)) = update t (Handler ActStart H_Done) (pool c) /\
     runs_executing (step c (Run t o)) = runs_executing c /\
     running (g (step c (Run t o))) = running (g c) /\
     last_pin (g (step c (Run t o))) = last_pin (g c) /\
     hw (step c (Run t o)) = hw c /\
     hd_error (trace (step c (Run t o)))
     = Some (Thr t, Respond (Some (status_text StCameraFailed)))) /\
  (forall cam ok ls t th,
     pc_of (exec (boot cam ok) ls) t = Some th ->
     needs_camera th = true ->
     camera (g (exec (boot cam ok) ls)) <> None) /\
  (forall cam ok ls t pc,
     pc_of (exec (boot cam ok) ls) t = Some (Recorder pc) ->
     ~ In (Log MsgNoCamera)
         (events_of (Thr t) (history (exec (boot cam ok) ls)))).
Proof.
  split; [|split].
  - intros c t o Ha Hn Ho. unfold pc_of in Hn.
    assert (Ht : t < length (pool c)) by (apply nth_error_Some; congruence).
    unfold step. rewrite Ha, Hn. cbn [negb thread_step handler_step].
    destruct (cam_open o); [congruence| |]; unfold goto;
      cbn [g hw pool trace th' g' hw' evs child opt_list];
      rewrite app_nil_r; repeat split;
      unfold runs_executing; cbn [pool];
      now apply length_filter_update with (y := Handler ActStart H_Init).
  - intros cam ok ls t th H Hnc.
    exact (camera_inv cam ok _ (reachable_exec _ ls) t th H Hnc).
  - intros cam ok ls t pc H.
    exact (no_camera_exit_unreachable cam ok _ (reachable_exec _ ls) t pc H).
Qed.

Lemma failed_open_aborts_start_witness :
  (pool (step (exec (boot None true) (firstn 3 start_without_camera))
           (Run 0 closed))
   = update 0 (Handler ActStart H_Done)
       (pool (exec (boot None true) (firstn 3 start_without_camera))) /\
   runs_executing
     (step (exec (boot None true) (firstn 3 start_without_camera)) (Run 0 closed))
   = runs_executing (exec (boot None true) (firstn 3 start_without_camera)) /\
   running (g (step (exec (boot None true) (firstn 3 start_without_camera))
                 (Run 0 closed)))
   = running (g (exec (boot None true) (firstn 3 start_without_camera))) /\
   last_pin (g (step (exec (boot None true) (firstn 3 start_without_camera))
                  (Run 0 closed)))
   = last_pin (g (exec (boot None true) (firstn 3 start_without_camera))) /\
   hw (step (exec (boot None true) (firstn 3 start_without_camera)) (Run 0 closed))
   = hw (exec (boot None true) (firstn 3 start_without_camera)) /\
   hd_error (trace (step (exec (boot None true) (firstn 3 start_without_camera))
                      (Run 0 closed)))
   = Some (Thr 0, Respond (Some (status_text StCameraFailed)))) /\
  camera (g (exec (boot camera_ok true) one_code)) <> None /\
  ~ In (Log MsgNoCamera)
      (events_of (Thr 2) (history (exec (boot camera_ok true) capture_with_miss))).
Proof.
  destruct failed_open_aborts_start as (A & B & C).
  split; [|split].
  - apply (A (exec (boot None true) (firstn 3 start_without_camera)) 0 closed);
      [vm_compute; reflexivity | vm_compute; reflexivity | discriminate].
  - apply (B camera_ok true one_code 1 (Brute (B_Check 1) (Some 2)));
      vm_compute; reflexivity.
  - apply (C camera_ok true capture_with_miss 2 R_Returned).
    vm_compute. reflexivity.
Defined.

(** C5, counterexample.  No camera object exists and the device does not
    open: the start request answers with the camera error, no run is
    spawned, the active flag stays false and no code is sent. *)
Lemma no_run_without_camera :
  pool (exec (boot None true) start_without_camera)
  = [Handler ActStart H_Done] /\
  running (g (exec (boot None true) start_without_camera)) = false /\
  last (history (exec (boot None true) start_without_camera)) (Main, ProcessExit)
  = (Thr 0, Respond (Some "Kamera konnte nicht initialisiert werden!")) /\
  sends (map snd (history (exec (boot None true) start_without_camera))) = [] /\
  forall ls,
    (forall l, In l ls -> exists o, l = Run 0 o) ->
    exec (exec (boot None true) start_without_camera) ls
    = exec (boot None true) start_without_camera.
Proof.
  do 4 (split; [vm_compute; reflexivity|]).
  intros ls Hls. induction ls as [|l ls IH]; [reflexivity|].
  destruct (Hls l (or_introl eq_refl)) as [o ->].
  cbn [exec fold_left]. rewrite <- IH at 2 by (intros; apply Hls; now right).
  reflexivity.
Qed.

(** After a failed open has left a camera object that is not open, the next
    start request does start a run: codes are sent, the capture task opens a
    video and logs a miss on its tick. *)
Example run_with_unopened_camera :
  let c := exec (boot (Some {| isOpened := false |}) true)
             ([Arrive (PostIndex ActStart)] ++ runs 0 3 ++ runs 1 7 ++ runs 2 4) in
  sends (events_of (Thr 1) (history c)) = ["0000"] /\
  events_of (Thr 2) (history c)
  = [OpenVideo "session_t.avi"; Log (MsgVideoStarted "session_t.avi");
     Log MsgNoFrame; Sleep 3000].
Proof. split; vm_compute; reflexivity. Qed.

(** ** The end of the process *)

(** What one call of [cleanup] does. *)
Lemma cleanup_spec s h s1 h1 t :
  cleanup s h = (s1, h1, t) ->
  running s1 = false /\
  (camera s = None -> camera s1 = None) /\
  (camera s <> None ->
   camera s1 = Some {| isOpened := false |} /\ In CameraRelease t) /\
  (channel_ready h = true -> line h1 = LOW /\ In (Output LOW) t) /\
  (channel_ready h = false -> h1 = h) /\
  channel_ready h1 = false /\
  ~ In VideoRelease t.
Proof.
  unfold cleanup. cbn [set_running camera].
  destruct (GPIO_output_cases LOW h) as [[Hr E]|[Hr E]]; rewrite E;
    destruct (camera s) as [cm|] eqn:Ec; intros [= <- <- <-]; cbn;
    rewrite ?Ec; repeat split; try congruence; auto 10;
    try (intros H; in_concrete H); try (intros _ H; in_concrete H).
Qed.

Lemma cleanup_times_spec k : forall s h s1 h1 t,
  cleanup_times (S k) s h = (s1, h1, t) ->
  running s1 = false /\
  (camera s = None -> camera s1 = None) /\
  (camera s <> None ->
   camera s1 = Some {| isOpened := false |} /\ In CameraRelease t) /\
  (channel_ready h = true -> line h1 = LOW /\ In (Output LOW) t) /\
  (channel_ready h = false -> h1 = h) /\
  channel_ready h1 = false /\
  ~ In VideoRelease t.
Proof.
  induction k as [|k IH]; intros s h s1 h1 t.
  - cbn [cleanup_times]. destruct (cleanup s h) as [[s' h'] t'] eqn:E.
    intros [= <- <- <-]. rewrite app_nil_r. now apply cleanup_spec in E.
  - remember (S k) as k'. cbn [cleanup_times].
    destruct (cleanup s h) as [[s' h'] t'] eqn:E.
    destruct (cleanup_times k' s' h') as [[s'' h''] t''] eqn:E'.
    intros [= <- <- <-]. subst k'.
    apply cleanup_spec in E as (A1 & A2 & A3 & A4 & A5 & A6 & A7).
    apply IH in E' as (B1 & B2 & B3 & B4 & B5 & B6 & B7).
    repeat split; auto.
    + apply A3 in H as [Hc Hin]. apply B3. congruence.
    + apply in_or_app. left. now apply A3.
    + rewrite (B5 A6). now apply A4.
    + apply in_or_app. left. now apply A4.
    + rewrite (B5 A6). now apply A5.
    + intros Hin. apply in_app_or in Hin as [Hin|Hin]; auto.
Qed.

Lemma shutdown_spec p s h s1 h1 t :
  shutdown p s h = (s1, h1, t) ->
  running s1 = false /\
  (camera s <> None ->
   camera s1 = Some {| isOpened := false |} /\ In CameraRelease t) /\
  (channel_ready h = true -> line h1 = LOW /\ In (Output LOW) t) /\
  ~ In VideoRelease t.
Proof.
  unfold shutdown.
  destruct (cleanup_times (cleanups_on p) s h) as [[s' h'] t'] eqn:E.
  intros [= <- <- <-].
  assert (Hk : exists k, cleanups_on p = S k) by (destruct p; cbn; eauto).
  destruct Hk as [k Hk]. rewrite Hk in E.
  apply cleanup_times_spec in E as (B1 & B2 & B3 & B4 & B5 & B6 & B7).
  repeat split; auto.
  - now apply B3.
  - apply in_or_app. right. apply in_or_app. left. now apply B3.
  - now apply B4.
  - apply in_or_app. right. apply in_or_app. left. now apply B4.
  - intros Hin. apply in_app_or in Hin as [Hin|Hin].
    + destruct p; in_concrete Hin.
    + apply in_app_or in Hin as [Hin|Hin]; [auto | in_concrete Hin].
Qed.

(** C9 (as amended). On every exit path the shutdown clears the active
    flag, releases the camera when a camera object exists, and writes the
    line low when the output channel is still set up (a failing write is
    swallowed).  It does not touch the video writer of a capture task: it
    releases no video, the threads stay where they are, and nothing runs
    after the process has ended. *)
Theorem shutdown_effects :
  forall c p,
    alive c = true ->
    running (g (step c (Shutdown p))) = false /\
    (camera (g c) <> None ->
     camera (g (step c (Shutdown p))) = Some {| isOpened := false |} /\
     In (Main, CameraRelease) (trace (step c (Shutdown p)))) /\
    (channel_ready (hw c) = true ->
     line (hw (step c (Shutdown p))) = LOW /\
     In (Main, Output LOW) (trace (step c (Shutdown p)))) /\
    (forall a, In (a, VideoRelease) (trace (step c (Shutdown p))) ->
               In (a, VideoRelease) (trace c)) /\
    pool (step c (Shutdown p)) = pool c /\
    videos_open (step c (Shutdown p)) = videos_open c /\
    forall ls, exec (step c (Shutdown p)) ls = step c (Shutdown p).
Proof.
  intros c p Ha. unfold step at 1 2 3 4 5 6 7 8 9. rewrite Ha. cbn [negb].
  destruct (shutdown p (g c) (hw c)) as [[s1 h1] t] eqn:E.
  assert (Est : step c (Shutdown p)
                = {| g := s1; hw := h1; pool := pool c;
                     trace := rev (tag Main t) ++ trace c; alive := false |}).
  { unfold step. now rewrite Ha, E. }
  rewrite Est. cbn [g hw pool trace].
  apply shutdown_spec in E as (B1 & B2 & B3 & B4).
  assert (Hin : forall e, In e t -> In (Main, e) (rev (tag Main t) ++ trace c)).
  { intros e He. apply in_or_app. left. apply -> in_rev.
    unfold tag. now apply in_map. }
  repeat split; auto.
  - now apply B2.
  - apply Hin. now apply B2.
  - now apply B3.
  - apply Hin. now apply B3.
  - intros a Hv. apply in_app_or in Hv as [Hv|Hv]; [|assumption].
    exfalso. apply in_rev in Hv. unfold tag in Hv. apply in_map_iff in Hv.
    destruct Hv as (e & [= _ ->] & He). contradiction.
  - intros ls. now apply dead_exec.
Qed.

Lemma shutdown_effects_witness :
  running (g (step (exec (boot camera_ok true) one_code) (Shutdown ExitSignal)))
  = false /\
  (camera (g (exec (boot camera_ok true) one_code)) <> None ->
   camera (g (step (exec (boot camera_ok true) one_code) (Shutdown ExitSignal)))
   = Some {| isOpened := false |} /\
   In (Main, CameraRelease)
      (trace (step (exec (boot camera_ok true) one_code) (Shutdown ExitSignal)))) /\
  (channel_ready (hw (exec (boot camera_ok true) one_code)) = true ->
   line (hw (step (exec (boot camera_ok true) one_code) (Shutdown ExitSignal)))
   = LOW /\
   In (Main, Output LOW)
      (trace (step (exec (boot camera_ok true) one_code) (Shutdown ExitSignal)))) /\
  (forall a,
     In (a, VideoRelease)
        (trace (step (exec (boot camera_ok true) one_code) (Shutdown ExitSignal))) ->
     In (a, VideoRelease) (trace (exec (boot camera_ok true) one_code))) /\
  pool (step (exec (boot camera_ok true) one_code) (Shutdown ExitSignal))
  = pool (exec (boot camera_ok true) one_code) /\
  videos_open (step (exec (boot camera_ok true) one_code) (Shutdown ExitSignal))
  = videos_open (exec (boot camera_ok true) one_code) /\
  forall ls,
    exec (step (exec (boot camera_ok true) one_code) (Shutdown ExitSignal)) ls
    = step (exec (boot camera_ok true) one_code) (Shutdown ExitSignal).
Proof.
  apply (shutdown_effects (exec (boot camera_ok true) one_code) ExitSignal).
  vm_compute. reflexivity.
Defined.

(** C9, counterexample.  SIGTERM arrives while a capture task holds an open
    video.  The shutdown drives the line low and releases the camera, and the
    process ends: the capture task never runs again, and no video is ever
    released. *)
Lemma video_left_open_at_exit :
  alive (exec (boot camera_ok true) signal_while_capturing) = false /\
  pc_of (exec (boot camera_ok true) signal_while_capturing) 2
  = Some (Recorder (R_Read "t" 1)) /\
  videos_open (exec (boot camera_ok true) signal_while_capturing) = 1 /\
  events_of (Thr 2) (history (exec (boot camera_ok true) signal_while_capturing))
  = [OpenVideo "session_t.avi"; Log (MsgVideoStarted "session_t.avi")] /\
  count is_release_video
    (map snd (history (exec (boot camera_ok true) signal_while_capturing))) = 0 /\
  last (history (exec (boot camera_ok true) signal_while_capturing))
    (Main, ProcessExit) = (Main, ProcessExit).
Proof. do 5 (split; [vm_compute; reflexivity|]). vm_compute. reflexivity. Qed.

(** ** Invariants of the process *)

Lemma Forall_update {A} (P : A -> Prop) (l : list A) x : forall n,
  Forall P l -> P x -> Forall P (update n x l).
Proof.
  induction l as [|y l IH]; intros n Hl Hx; [destruct n; constructor|].
  inversion Hl; subst. destruct n; cbn; constructor; auto.
Qed.

Lemma Forall_tag (E : event -> Prop) a l :
  Forall E l -> Forall (fun x => E (snd x)) (rev (tag a l)).
Proof.
  intros H. apply Forall_rev. unfold tag. apply Forall_map.
  revert H. apply Forall_impl. auto.
Qed.

(** A condition [Q] on the globals and the channel, a condition [P] on the
    threads and a condition [E] on the events that every statement keeps hold
    in every configuration that the process reaches. *)
Section Invariant.
Variable Q : globals -> gpio -> Prop.
Variable P : thread -> Prop.
Variable E : event -> Prop.

Hypothesis P_request : forall r, P (serve r).
Hypothesis P_run : P (Brute B_Start None).
Hypothesis P_capture : P (Recorder R_Start).
Hypothesis step_keeps :
  forall fresh o th s h out,
    Q s h -> P th -> thread_step fresh o th s h = Some out ->
    Q (g' out) (hw' out) /\ P (th' out) /\ Forall E (evs out).
Hypothesis shutdown_keeps :
  forall p s h s1 h1 t,
    Q s h -> shutdown p s h = (s1, h1, t) -> Q s1 h1 /\ Forall E t.

Lemma invariant_step c l :
  Q (g c) (hw c) /\ Forall P (pool c) /\ Forall (fun x => E (snd x)) (trace c) ->
  Q (g (step c l)) (hw (step c l)) /\ Forall P (pool (step c l)) /\
  Forall (fun x => E (snd x)) (trace (step c l)).
Proof.
  intros (HQ & HP & HE).
  destruct (step_stepped c l)
    as [l | r Ha | u o th out Ha Hn Hs | p s1 h1 tr Ha Hs]; cbn [g hw pool trace].
  - auto.
  - repeat split; auto. apply Forall_app. split; [assumption|].
    constructor; [apply P_request|constructor].
  - assert (Hth : P th).
    { apply nth_error_In in Hn. rewrite Forall_forall in HP. auto. }
    destruct (step_keeps _ _ _ _ _ _ HQ Hth Hs) as (HQ' & HP' & HE').
    repeat split; auto.
    + apply Forall_app. split; [now apply Forall_update|].
      destruct (child out) as [ch|] eqn:Hch; [|constructor].
      constructor; [|constructor].
      destruct (child_entry _ _ _ _ _ _ _ Hs Hch) as [-> | ->]; assumption.
    + apply Forall_app. split; [now apply Forall_tag | assumption].
  - destruct (shutdown_keeps _ _ _ _ _ _ HQ Hs) as (HQ' & HE').
    repeat split; auto.
    apply Forall_app. split; [now apply Forall_tag | assumption].
Qed.

Lemma invariant_exec cam ok ls :
  Q (g (boot cam ok)) (hw (boot cam ok)) ->
  Q (g (exec (boot cam ok) ls)) (hw (exec (boot cam ok) ls)) /\
  Forall P (pool (exec (boot cam ok) ls)) /\
  Forall (fun x => E (snd x)) (trace (exec (boot cam ok) ls)).
Proof.
  intros H0. induction ls as [|l ls IH] using rev_ind.
  - repeat split; [exact H0 | constructor | constructor].
  - rewrite exec_snoc. now apply invariant_step.
Qed.
End Invariant.

(** ** A camera that did not open *)

Lemma init_camera_in_index fresh o a s h :
  handler_step fresh o a H_Init s h
  = let '(opened, s1, t) := init_camera o s in
    if opened
    then goto (Handler a H_Spawn) s1 h t
    else goto (Handler a H_Done) s1 h
           (t ++ [Log (MsgStatus (status_text StCameraFailed));
                  Respond (Some (status_text StCameraFailed))]).
Proof. unfold handler_step, init_camera. now destruct (cam_open o). Qed.

Lemma cleanup_unopened s h :
  camera s = unopened -> camera (fst (fst (cleanup s h))) = unopened.
Proof.
  unfold cleanup, unopened. cbn [set_running camera]. intros ->.
  now destruct (GPIO_output LOW h) as [[[e|[]] h1] t].
Qed.

Lemma cleanup_no_camera_event s h :
  Forall (fun e => camera_event e = false) (snd (cleanup s h)).
Proof.
  unfold cleanup. cbn [set_running camera].
  destruct (GPIO_output_cases LOW h) as [[_ E]|[_ E]]; rewrite E;
    destruct (camera s); cbn; repeat constructor.
Qed.

Lemma cleanup_times_unopened k : forall s h,
  camera s = unopened ->
  camera (fst (fst (cleanup_times k s h))) = unopened /\
  Forall (fun e => camera_event e = false) (snd (cleanup_times k s h)).
Proof.
  induction k as [|k IH]; intros s h Hc; [split; [assumption|constructor]|].
  cbn [cleanup_times].
  pose proof (cleanup_unopened s h Hc) as H1.
  pose proof (cleanup_no_camera_event s h) as H2.
  destruct (cleanup s h) as [[s1 h1] t1]. cbn [fst snd] in H1, H2.
  destruct (IH s1 h1 H1) as [H3 H4].
  destruct (cleanup_times k s1 h1) as [[s2 h2] t2]. cbn [fst snd] in *.
  split; [assumption|]. apply Forall_app. now split.
Qed.

Lemma unopened_step fresh o th s h out :
  camera s = unopened -> past_camera th = false ->
  thread_step fresh o th s h = Some out ->
  camera (g' out) = unopened /\ past_camera (th' out) = false /\
  Forall (fun e => camera_event e = false) (evs out).
Proof.
  unfold unopened. intros Hc Hp Hs.
  destruct th as [a [] | pc r | [] | b]; try discriminate Hp;
    unfold thread_step, handler_step, recorder_step in Hs;
    rewrite ?Hc in Hs; step_cases Hs; cbn in *; try congruence;
    repeat split; try assumption; try discriminate; repeat constructor.
Qed.

Lemma unopened_shutdown p s h s1 h1 t :
  camera s = unopened -> shutdown p s h = (s1, h1, t) ->
  camera s1 = unopened /\ Forall (fun e => camera_event e = false) t.
Proof.
  intros Hc. unfold shutdown.
  destruct (cleanup_times_unopened (cleanups_on p) s h Hc) as [H1 H2].
  destruct (cleanup_times (cleanups_on p) s h) as [[s2 h2] t2].
  cbn [fst snd] in *. intros [= <- <- <-]. split; [assumption|].
  apply Forall_app. split; [destruct p; repeat constructor|].
  apply Forall_app. split; [assumption | repeat constructor].
Qed.

Lemma startup_unopened o :
  cam_open o = OpenClosed -> camera (startup o) = unopened.
Proof. unfold startup, init_camera. now intros ->. Qed.

(** When [init_camera] at start-up (line 365) builds a camera object whose
    device did not open, the service never opens the camera again: [camera]
    stays that object, [init_camera] is not called again, and no frame is ever
    written to an image or a video.  A start request passes the test of line
    322 all the same and goes on to spawn the run. *)
Theorem unopened_camera_is_never_retried :
  forall o ok ls,
    cam_open o = OpenClosed ->
    camera (g (exec (boot (camera (startup o)) ok) ls)) = unopened /\
    (forall a e, In (a, e) (history (exec (boot (camera (startup o)) ok) ls)) ->
                 camera_event e = false) /\
    (forall t a o',
       alive (exec (boot (camera (startup o)) ok) ls) = true ->
       pc_of (exec (boot (camera (startup o)) ok) ls) t
       = Some (Handler a H_Camera) ->
       pc_of (step (exec (boot (camera (startup o)) ok) ls) (Run t o')) t
       = Some (Handler a H_Spawn)).
Proof.
  intros o0 ok ls Ho. rewrite (startup_unopened o0 Ho).
  destruct (invariant_exec
              (fun s _ => camera s = unopened)
              (fun th => past_camera th = false)
              (fun e => camera_event e = false)) with (cam := unopened) (ok := ok) (ls := ls)
    as (HQ & HP & HE).
  - now intros [[]|].
  - reflexivity.
  - reflexivity.
  - intros fresh o th s h out Hc Hp Hs. now apply (unopened_step fresh o th s h).
  - intros p s h s1 h1 t Hc Hs. now apply (unopened_shutdown p s h s1 h1 t).
  - reflexivity.
  - split; [exact HQ|]. split.
    + intros a e Hin. apply in_history in Hin.
      rewrite Forall_forall in HE. exact (HE _ Hin).
    + intros t a o Ha Hn. unfold pc_of in *.
      unfold step. rewrite Ha. cbn [negb]. rewrite Hn.
      cbn [thread_step handler_step]. rewrite HQ. unfold unopened, goto.
      cbn [pool th' child opt_list]. rewrite app_nil_r.
      apply nth_error_update_eq. apply nth_error_Some.
      unfold unopened in *. congruence.
Qed.

Lemma unopened_camera_is_never_retried_witness :
  camera (g (exec (boot (camera (startup no_device)) true) start_up_to_camera_test))
  = unopened /\
  pc_of (step (exec (boot (camera (startup no_device)) true)
                 start_up_to_camera_test) (Run 0 quiet)) 0
  = Some (Handler ActStart H_Spawn).
Proof.
  destruct (unopened_camera_is_never_retried no_device true
              start_up_to_camera_test eq_refl) as (A & _ & C).
  split; [exact A|].
  apply C; vm_compute; reflexivity.
Defined.

(** A condition [R] that relates every thread to the events it has written,
    given a condition [Q] on the globals and the channel that every statement
    keeps. *)
Section ThreadInvariant.
Variable Q : globals -> gpio -> Prop.
Variable R : thread -> list event -> Prop.

Hypothesis R_request : forall r, R (serve r) [].
Hypothesis R_run : R (Brute B_Start None) [].
Hypothesis R_capture : R (Recorder R_Start) [].
Hypothesis Q_step :
  forall fresh o th s h out,
    Q s h -> thread_step fresh o th s h = Some out -> Q (g' out) (hw' out).
Hypothesis Q_shutdown :
  forall p s h s1 h1 t, Q s h -> shutdown p s h = (s1, h1, t) -> Q s1 h1.
Hypothesis R_step :
  forall fresh o th s h out ev,
    Q s h -> R th ev -> thread_step fresh o th s h = Some out ->
    R (th' out) (ev ++ evs out).

Lemma thread_invariant cam ok ls :
  Q (g (boot cam ok)) (hw (boot cam ok)) ->
  Q (g (exec (boot cam ok) ls)) (hw (exec (boot cam ok) ls)) /\
  forall t th,
    nth_error (pool (exec (boot cam ok) ls)) t = Some th ->
    R th (events_of (Thr t) (history (exec (boot cam ok) ls))).
Proof.
  intros H0. induction ls as [|l ls IH] using rev_ind.
  - split; [exact H0|]. now intros [|t].
  - rewrite exec_snoc. destruct IH as [HQ HR].
    pose proof (reachable_exec (boot cam ok) ls) as Hr.
    set (c := exec (boot cam ok) ls) in *.
    split.
    + destruct (step_stepped c l)
        as [l | r Ha | u o th out Ha Hn Hs | p s1 h1 tr Ha Hs]; cbn [g hw]; eauto.
    + intros t th1 H.
      apply (thread_view (boot cam ok)) in H;
        [|reflexivity|reflexivity|assumption].
      destruct H as [[H ->] | [(o & th & out & -> & Ha & Hn & Hs & -> & -> & _)
                              | (_ & -> & Hb)]].
      * now apply HR.
      * eapply R_step; eauto.
      * destruct Hb as [-> | [-> | [r ->]]]; auto.
Qed.
End ThreadInvariant.

(** ** A channel that was never set up *)

Lemma send_pin_no_channel pin h :
  channel_ready h = false ->
  send_pin pin h = (inl RuntimeError, h, [Log (MsgPinStart pin)]).
Proof.
  intros Hr. unfold send_pin, send_light_pulse, bind, logger_info, GPIO_output.
  now rewrite Hr.
Qed.

Lemma no_channel_step fresh o th s h out :
  h = no_channel -> thread_step fresh o th s h = Some out -> hw' out = no_channel.
Proof.
  intros -> Hs.
  destruct th as [a pc | pc r | pc | b]; try (step_cases Hs; reflexivity).
  cbn [thread_step] in Hs.
  destruct pc; unfold brute_step, goto, fork in Hs;
    rewrite ?send_pin_no_channel in Hs by reflexivity;
    step_cases Hs; try reflexivity; discriminate.
Qed.

Lemma cleanup_no_channel s : snd (fst (cleanup s no_channel)) = no_channel.
Proof. unfold cleanup. cbn. now destruct (camera s). Qed.

Lemma cleanup_times_no_channel k : forall s,
  snd (fst (cleanup_times k s no_channel)) = no_channel.
Proof.
  induction k as [|k IH]; intros s; [reflexivity|].
  cbn [cleanup_times].
  pose proof (cleanup_no_channel s) as H1.
  destruct (cleanup s no_channel) as [[s1 h1] t1]. cbn [fst snd] in H1. subst h1.
  pose proof (IH s1) as H2.
  destruct (cleanup_times k s1 no_channel) as [[s2 h2] t2]. exact H2.
Qed.

Lemma no_channel_shutdown p s h s1 h1 t :
  h = no_channel -> shutdown p s h = (s1, h1, t) -> h1 = no_channel.
Proof.
  intros ->. unfold shutdown.
  pose proof (cleanup_times_no_channel (cleanups_on p) s) as H.
  destruct (cleanup_times (cleanups_on p) s no_channel) as [[s2 h2] t2].
  cbn [fst snd] in H. now intros [= <- <- <-].
Qed.

Lemma without_channel_step fresh o th s h out ev :
  h = no_channel -> without_channel th ev ->
  thread_step fresh o th s h = Some out ->
  without_channel (th' out) (ev ++ evs out).
Proof.
  intros -> Hw Hs.
  destruct th as [a pc | pc r | pc | b]; try (step_cases Hs; exact I).
  cbn [thread_step] in Hs. cbn [without_channel] in Hw.
  destruct pc as [| | |[|i]|[|i]|[|i]|i|[]| | | | | |[]]; try contradiction;
    unfold brute_step, goto, fork in Hs;
    rewrite ?send_pin_no_channel in Hs by reflexivity;
    step_cases Hs; cbn [without_channel]; rewrite sends_app; cbn [sends];
    rewrite ?app_nil_r; try discriminate;
    repeat match goal with
           | H : _ /\ _ |- _ => destruct H
           end;
    try match goal with
        | H : sends _ = _ |- _ => rewrite H; cbn [app]
        end;
    try (split; [discriminate || assumption|]); auto.
Qed.

(** When [GPIO.setup] failed at start-up (lines 42-46 log the error and go
    on), the line is never driven: the channel stays as it was, and [send_pin]
    raises [RuntimeError] before its first pulse, whatever the code.  Every
    run therefore calls [send_pin] at most once, for the code 0000, and never
    returns: the write of line 310 raises out of its [finally] block, so a run
    that has no step left has died with [RuntimeError]. *)
Theorem failed_gpio_setup_kills_every_run :
  forall cam ls,
    hw (exec (boot cam false) ls) = no_channel /\
    (forall pin,
       send_pin pin (hw (exec (boot cam false) ls))
       = (inl RuntimeError, no_channel, [Log (MsgPinStart pin)])) /\
    (forall t pc r,
       pc_of (exec (boot cam false) ls) t = Some (Brute pc r) ->
       pc <> B_Returned /\
       (forall e, pc = B_Except e \/ pc = B_Died e -> e = RuntimeError) /\
       (sends (events_of (Thr t) (history (exec (boot cam false) ls))) = [] \/
        sends (events_of (Thr t) (history (exec (boot cam false) ls))) = ["0000"]) /\
       (forall fresh,
          brute_step fresh pc r (g (exec (boot cam false) ls))
            (hw (exec (boot cam false) ls)) = None ->
          pc = B_Died RuntimeError)).
Proof.
  intros cam ls.
  destruct (thread_invariant (fun _ h => h = no_channel) without_channel)
    with (cam := cam) (ok := false) (ls := ls) as (HQ & HR).
  - intros r. now destruct r.
  - reflexivity.
  - exact I.
  - intros fresh o th s h out Hh Hs. now apply (no_channel_step fresh o th s h).
  - intros p s h s1 h1 t Hh Hs. now apply (no_channel_shutdown p s h s1 h1 t).
  - intros fresh o th s h out ev Hh Hw Hs.
    now apply (without_channel_step fresh o th s h).
  - reflexivity.
  - split; [exact HQ|]. split.
    + intros pin. rewrite HQ. now apply send_pin_no_channel.
    + intros t pc r H. specialize (HR t _ H). cbn [without_channel] in HR.
      rewrite HQ.
      destruct pc as [| | |[|i]|[|i]|[|i]|i|[]| | | | | |[]]; try contradiction;
        (split; [discriminate|]);
        (split; [intros e [[=]|[=]]; subst; reflexivity|]);
        (split;
         [first [left; exact HR | left; exact (proj2 HR)
                | right; exact (proj2 HR) | exact (proj2 HR)]
         |intros fresh Hn; pose proof (brute_step_none _ _ _ _ _ Hn) as Hd;
          unfold brute_step, goto, fork in Hn;
          first [discriminate Hd | discriminate Hn | reflexivity
                | exfalso; destruct r; [discriminate Hn | now apply (proj1 HR)]]]).
Qed.

Lemma failed_gpio_setup_kills_every_run_witness :
  (B_Died RuntimeError <> B_Returned /\
   (forall e, B_Died RuntimeError = B_Except e \/ B_Died RuntimeError = B_Died e ->
              e = RuntimeError) /\
   (sends (events_of (Thr 1) (history (exec (boot camera_ok false) run_without_gpio)))
    = [] \/
    sends (events_of (Thr 1) (history (exec (boot camera_ok false) run_without_gpio)))
    = ["0000"]) /\
   (forall fresh,
      brute_step fresh (B_Died RuntimeError) (Some 2)
        (g (exec (boot camera_ok false) run_without_gpio))
        (hw (exec (boot camera_ok false) run_without_gpio)) = None ->
      B_Died RuntimeError = B_Died RuntimeError)).
Proof.
  apply (proj2 (proj2 (failed_gpio_setup_kills_every_run camera_ok run_without_gpio))
           1 (B_Died RuntimeError) (Some 2)).
  vm_compute. reflexivity.
Defined.

(** ** What [last_pin] holds *)

Lemma cleanup_shutdown_events s h :
  Forall (fun e => shutdown_event e = true) (snd (cleanup s h)).
Proof.
  unfold cleanup. cbn [set_running camera].
  destruct (GPIO_output_cases LOW h) as [[_ E]|[_ E]]; rewrite E;
    destruct (camera s); cbn; repeat constructor.
Qed.

Lemma cleanup_times_shutdown_events k : forall s h,
  Forall (fun e => shutdown_event e = true) (snd (cleanup_times k s h)).
Proof.
  induction k as [|k IH]; intros s h; [constructor|].
  cbn [cleanup_times].
  pose proof (cleanup_shutdown_events s h) as H1.
  destruct (cleanup s h) as [[s1 h1] t1]. cbn [snd] in H1.
  pose proof (IH s1 h1) as H2.
  destruct (cleanup_times k s1 h1) as [[s2 h2] t2]. cbn [snd] in *.
  apply Forall_app. now split.
Qed.

Lemma shutdown_events p s h :
  Forall (fun e => shutdown_event e = true) (snd (shutdown p s h)).
Proof.
  unfold shutdown.
  pose proof (cleanup_times_shutdown_events (cleanups_on p) s h) as H.
  destruct (cleanup_times (cleanups_on p) s h) as [[s2 h2] t2].
  cbn [snd] in *. apply Forall_app. split; [destruct p; repeat constructor|].
  apply Forall_app. split; [assumption | repeat constructor].
Qed.

Lemma shows_code_step fresh o th s h out :
  code_or_none (last_pin s) -> in_range th ->
  thread_step fresh o th s h = Some out ->
  code_or_none (last_pin (g' out)) /\ in_range (th' out) /\
  Forall shows_code (evs out).
Proof.
  intros Hq Hp Hs.
  destruct th as [a pc | pc r | pc | b]; step_cases Hs;
    cbn [in_range last_pin set_last_pin set_running set_camera code_or_none] in *;
    (split; [|split]);
    repeat match goal with
           | |- Forall _ _ => constructor
           end;
    cbn [shows_code]; try assumption; try exact I;
    try (now apply code_space_leb);
    try (eexists; split; [eassumption | reflexivity]);
    try (eexists; eexists; split; [exact Hq | reflexivity]).
Qed.

Lemma code_shape i :
  i < code_space ->
  code_value (fmt04d i) = Some i /\ pin_or_dashes (Some (fmt04d i)) = fmt04d i.
Proof.
  intros Hi. pose proof (fmt04d_code i Hi) as Hv. split; [exact Hv|].
  destruct (code_value_digits _ _ Hv) as (c0 & c1 & c2 & c3 & _ & _ & _ & _ & -> & _).
  reflexivity.
Qed.

(** [last_pin] only ever holds [None] or one of the codes 0000 to 9999, a
    string of four decimal characters.  So a status query (line 343) reports
    null or such a code, never an empty string, and the label stamped on an
    image (line 242) shows the dashes or such a code. *)
Theorem last_pin_is_none_or_a_code :
  forall cam ok ls,
    (last_pin (g (exec (boot cam ok) ls)) = None \/
     exists i, i < code_space /\
       last_pin (g (exec (boot cam ok) ls)) = Some (fmt04d i) /\
       code_value (fmt04d i) = Some i) /\
    (forall a p r,
       In (a, Observe p r) (history (exec (boot cam ok) ls)) ->
       p = None \/ exists i, i < code_space /\ p = Some (fmt04d i)) /\
    (forall a file label,
       In (a, Imwrite file label) (history (exec (boot cam ok) ls)) ->
       exists ts,
         label = ("PIN: ---- | " ++ ts)%string \/
         exists i, i < code_space /\
           label = ("PIN: " ++ fmt04d i ++ " | " ++ ts)%string).
Proof.
  intros cam ok ls.
  destruct (invariant_exec (fun s _ => code_or_none (last_pin s)) in_range shows_code)
    with (cam := cam) (ok := ok) (ls := ls) as (HQ & _ & HE).
  - now intros [a|].
  - exact I.
  - exact I.
  - intros fresh o th s h out Hq Hp Hs. now apply (shows_code_step fresh o th s h).
  - intros p s h s1 h1 t Hq Hs. split.
    + pose proof (shutdown_last_pin p s h) as E. rewrite Hs in E. cbn in E.
      now rewrite E.
    + pose proof (shutdown_events p s h) as Hev. rewrite Hs in Hev. cbn [snd] in Hev.
      revert Hev. apply Forall_impl. intros e He. now destruct e.
  - exact I.
  - rewrite Forall_forall in HE. split; [|split].
    + destruct (last_pin (g (exec (boot cam ok) ls))) as [p|]; [|now left].
      right. destruct HQ as (i & Hi & ->). exists i.
      split; [assumption|]. split; [reflexivity|]. now apply code_shape.
    + intros a p r Hin. apply in_history in Hin. apply HE in Hin. cbn in Hin.
      destruct p as [p|]; [|now left]. right.
      destruct Hin as (i & Hi & ->). eauto.
    + intros a file label Hin. apply in_history in Hin. apply HE in Hin.
      cbn [snd shows_code] in Hin. destruct Hin as (p & ts & Hp & ->).
      exists ts. destruct p as [p|]; [|now left]. right.
      destruct Hp as (i & Hi & ->). exists i. split; [assumption|].
      unfold stamp. now rewrite (proj2 (code_shape i Hi)).
Qed.

(** ** [cleanup], called again *)

Lemma cleanup_cleans s h : cleaned (fst (fst (cleanup s h))) (snd (fst (cleanup s h))).
Proof.
  unfold cleanup, cleaned, unopened. cbn [set_running camera].
  destruct (GPIO_output_cases LOW h) as [[Hr E]|[Hr E]]; rewrite E;
    destruct (camera s) eqn:Ec; cbn; rewrite ?Ec; auto.
Qed.

Lemma cleanup_cleaned s h :
  cleaned s h -> cleanup s h = (s, h, cleanup_again s).
Proof.
  intros (Hr & Hc & Hh). unfold cleanup, cleanup_again, GPIO_output, unopened in *.
  destruct s as [run lp cam]. cbn [running camera set_running set_camera last_pin] in *.
  rewrite Hh. subst run. destruct Hc as [-> | ->]; reflexivity.
Qed.

Lemma cleanup_times_cleaned k : forall s h,
  cleaned s h ->
  cleanup_times k s h = (s, h, concat (repeat (cleanup_again s) k)).
Proof.
  induction k as [|k IH]; intros s h Hc; [reflexivity|].
  cbn [cleanup_times repeat concat].
  rewrite (cleanup_cleaned s h Hc), (IH s h Hc). reflexivity.
Qed.

Lemma count_concat_repeat p l k :
  count p (concat (repeat l k)) = k * count p l.
Proof.
  induction k as [|k IH]; [reflexivity|].
  cbn [repeat concat]. rewrite count_app, IH. reflexivity.
Qed.

Lemma camera_after_cleanup s h :
  camera (fst (fst (cleanup s h))) = None <-> camera s = None.
Proof.
  unfold cleanup. cbn [set_running camera].
  destruct (GPIO_output LOW h) as [[[e|[]] h1] t];
    destruct (camera s) eqn:Ec; cbn; rewrite ?Ec; split; congruence.
Qed.

(** Every way out of the process calls [cleanup] more than once: in the
    [finally] of the main block (line 377), through [atexit] (line 96), and
    on a signal also in the handler (line 35).  The calls after the first
    change nothing: the process ends in the state that one call leaves.  They
    release the camera again each time, and their write to the line fails and
    is swallowed, so the line is written low and [GPIO.cleanup] is called
    once when the channel was set up, and never otherwise. *)
Theorem cleanup_is_repeated_harmlessly :
  forall p s h,
    2 <= cleanups_on p /\
    fst (shutdown p s h) = fst (cleanup s h) /\
    count is_camera_release (snd (shutdown p s h))
    = match camera s with Some _ => cleanups_on p | None => 0 end /\
    count is_output_low (snd (shutdown p s h))
    = (if channel_ready h then 1 else 0) /\
    count is_gpio_cleanup (snd (shutdown p s h))
    = (if channel_ready h then 1 else 0) /\
    count is_output_failed (snd (shutdown p s h))
    = cleanups_on p - (if channel_ready h then 1 else 0).
Proof.
  intros p s h.
  assert (Hk : exists k, cleanups_on p = S (S k)) by (destruct p; cbn; eauto).
  destruct Hk as [k Hk]. split; [lia|].
  unfold shutdown. rewrite Hk. remember (S k) as k1. cbn [cleanup_times].
  pose proof (cleanup_cleans s h) as Hc.
  pose proof (camera_after_cleanup s h) as Hcam.
  assert (Ht : snd (cleanup s h)
               = [Log MsgCleanup; SetRunning false] ++
                 match camera s with
                 | Some _ => [CameraRelease; Log MsgCameraReleased]
                 | None => []
                 end ++
                 (if channel_ready h
                  then [Output LOW; GpioCleanup; Log MsgGpioCleaned]
                  else [OutputFailed LOW])).
  { unfold cleanup, GPIO_output. cbn [set_running camera].
    destruct (channel_ready h); destruct (camera s); reflexivity. }
  destruct (cleanup s h) as [[s1 h1] t1]. cbn [fst snd] in *.
  rewrite (cleanup_times_cleaned k1 s1 h1 Hc). cbn [fst snd].
  split; [reflexivity|]. subst t1.
  assert (Hagain : forall q, count q (cleanup_again s1)
            = count q [Log MsgCleanup; SetRunning false] +
              match camera s with
              | Some _ => count q [CameraRelease; Log MsgCameraReleased]
              | None => 0
              end + count q [OutputFailed LOW]).
  { intros q. unfold cleanup_again. rewrite !count_app.
    destruct (camera s1) as [c1|] eqn:E1; destruct (camera s) as [c0|] eqn:E0.
    - lia.
    - exfalso. destruct Hcam as [_ H2]. discriminate (H2 eq_refl).
    - exfalso. destruct Hcam as [H1 _]. discriminate (H1 eq_refl).
    - change (count q []) with 0. lia. }
  rewrite !count_app, !count_concat_repeat, !Hagain.
  destruct p; destruct (channel_ready h); destruct (camera s);
    cbn in Hk |- *; repeat split; lia.
Qed.

(** ** [send_pin] on any string *)

Lemma slept_app a b : slept (a ++ b) = (slept a + slept b)%Z.
Proof.
  induction a as [|e a IH]; [reflexivity|].
  destruct e; cbn [app slept]; rewrite IH; lia.
Qed.

Lemma pulses_sent_app a b : pulses_sent (a ++ b) = pulses_sent a + pulses_sent b.
Proof. apply count_app. Qed.

Lemma slept_actuator t : slept (actuator t) = slept t.
Proof.
  induction t as [|e t IH]; [reflexivity|].
  destruct e; cbn [actuator filter is_log negb slept];
    fold (actuator t); now rewrite ?IH.
Qed.

Lemma pulses_sent_actuator t : pulses_sent (actuator t) = pulses_sent t.
Proof.
  unfold pulses_sent, count.
  induction t as [|e t IH]; [reflexivity|].
  destruct e as [[]| | | | | | | | | | | | | | | | | |];
    cbn [actuator filter is_log negb is_output_high length];
    fold (actuator t); now rewrite ?IH.
Qed.

Lemma digit_pulses_S d : digit_pulses (S d) = pulse ++ [Sleep 100] ++ digit_pulses d.
Proof. unfold digit_pulses. cbn [repeat concat]. now rewrite <- app_assoc. Qed.

Lemma digit_pulses_count d :
  pulses_sent (digit_pulses d) = d /\
  slept (digit_pulses d) = (600 * Z.of_nat d)%Z.
Proof.
  induction d as [|d [IH1 IH2]]; [split; reflexivity|].
  rewrite digit_pulses_S, !pulses_sent_app, !slept_app, IH1, IH2.
  split; [reflexivity|]. cbn [pulse slept]. lia.
Qed.

Lemma digit_round_bad i ch h :
  digit_of_ascii ch = None -> digit_round i ch h = (inl ValueError, h, []).
Proof. intros H. unfold digit_round, int, bind, raise. now rewrite H. Qed.

(** The loop of line 208 from the position [k], on a line that is low. *)
Lemma digits_loop chars : forall k,
  exists t,
    for_each (combine (seq k (length chars)) chars)
      (fun '(i, digit_char) => digit_round i digit_char) (ready LOW)
    = (if length (leading_digits chars) =? length chars
       then inr tt else inl ValueError, ready LOW, t) /\
    pulses_sent t = list_sum (leading_digits chars) /\
    slept t = (600 * Z.of_nat (list_sum (leading_digits chars)) +
               3100 * Z.of_nat (Nat.min 3 (k + length (leading_digits chars))
                                - Nat.min 3 k))%Z.
Proof.
  induction chars as [|c chars IH]; intros k.
  - exists []. cbn. repeat split. rewrite Nat.add_0_r, Nat.sub_diag. reflexivity.
  - cbn [length seq combine for_each leading_digits].
    destruct (digit_of_ascii c) as [d|] eqn:Hd.
    + destruct (digit_round_ready k c d LOW Hd) as (t1 & E1 & A1).
      replace (match d with 0 => LOW | S _ => LOW end) with LOW in E1
        by now destruct d.
      destruct (IH (S k)) as (t2 & E2 & P2 & S2).
      exists (t1 ++ t2). split; [|split].
      * cbn [length]. change (S (length (leading_digits chars)) =? S (length chars))
          with (length (leading_digits chars) =? length chars).
        eapply bind_ok; [exact E1 | exact E2].
      * rewrite pulses_sent_app, P2, <- pulses_sent_actuator, A1, pulses_sent_app.
        rewrite (proj1 (digit_pulses_count d)).
        change (list_sum (d :: leading_digits chars))
          with (d + list_sum (leading_digits chars)).
        destruct (k <? 3);
          [change (pulses_sent [Sleep 3100]) with 0
          |change (pulses_sent []) with 0]; lia.
      * rewrite slept_app, S2, <- slept_actuator, A1, slept_app.
        rewrite (proj2 (digit_pulses_count d)).
        change (list_sum (d :: leading_digits chars))
          with (d + list_sum (leading_digits chars)).
        cbn [length].
        destruct (k <? 3) eqn:Hk; cbn [slept];
          [apply Nat.ltb_lt in Hk | apply Nat.ltb_ge in Hk]; lia.
    + exists []. split; [|split].
      * cbn [length Nat.eqb]. apply bind_raise. now apply digit_round_bad.
      * reflexivity.
      * cbn [length list_sum slept]. rewrite Nat.add_0_r, Nat.sub_diag. reflexivity.
Qed.

Lemma length_list_ascii_of_string s :
  length (list_ascii_of_string s) = String.length s.
Proof. induction s as [|c s IH]; [reflexivity|]. cbn. now rewrite IH. Qed.


(** On a channel that is set up, [send_pin] accepts every string of ASCII
    characters.  It returns normally exactly when all characters are decimal
    digits and raises [ValueError] at the first character that is not one,
    never [RuntimeError].  Either way the line is low afterwards, and by then
    it has sent the start pulse and one pulse per unit of every digit before
    that character, and has slept 1.5 s for the start, 0.6 s per digit pulse
    and 3.1 s after each of those digits that stands at one of the first
    three positions. *)
Theorem send_pin_on_any_string :
  forall pin l,
    is_ascii pin = true ->
    exists t,
      send_pin pin (ready l)
      = (if length (leading_digits (list_ascii_of_string pin)) =? String.length pin
         then inr tt else inl ValueError,
         ready LOW, t) /\
      pulses_sent t = 1 + list_sum (leading_digits (list_ascii_of_string pin)) /\
      slept t
      = (1500
         + 600 * Z.of_nat (list_sum (leading_digits (list_ascii_of_string pin)))
         + 3100 * Z.of_nat (Nat.min 3 (length (leading_digits (list_ascii_of_string pin)))))%Z.
Proof.
  intros pin l _.
  destruct (digits_loop (list_ascii_of_string pin) 0) as (t & E & Hp & Hs).
  rewrite length_list_ascii_of_string in E at 2.
  change (Nat.min 3 0) with 0 in Hs. rewrite Nat.sub_0_r in Hs.
  change (0 + ?n) with n in Hs.
  destruct (length (leading_digits (list_ascii_of_string pin)) =? String.length pin).
  - exists ([Log (MsgPinStart pin)] ++ pulse ++ [Sleep 1000] ++ t ++ [Log MsgPinDone]).
    split; [|split].
    + unfold send_pin.
      eapply bind_ok; [reflexivity|].
      eapply bind_ok; [apply send_light_pulse_ready|].
      eapply bind_ok; [reflexivity|].
      eapply bind_ok; [exact E | reflexivity].
    + rewrite !pulses_sent_app, Hp.
      change (pulses_sent [Log (MsgPinStart pin)]) with 0.
      change (pulses_sent pulse) with 1.
      change (pulses_sent [Sleep 1000]) with 0.
      change (pulses_sent [Log MsgPinDone]) with 0. lia.
    + rewrite !slept_app, Hs. cbn [slept pulse]. lia.
  - exists ([Log (MsgPinStart pin)] ++ pulse ++ [Sleep 1000] ++ t).
    split; [|split].
    + unfold send_pin.
      eapply bind_ok; [reflexivity|].
      eapply bind_ok; [apply send_light_pulse_ready|].
      eapply bind_ok; [reflexivity|].
      apply bind_raise. exact E.
    + rewrite !pulses_sent_app, Hp.
      change (pulses_sent [Log (MsgPinStart pin)]) with 0.
      change (pulses_sent pulse) with 1.
      change (pulses_sent [Sleep 1000]) with 0. lia.
    + rewrite !slept_app, Hs. cbn [slept pulse]. lia.
Qed.

Lemma send_pin_on_any_string_witness :
  exists t,
    send_pin "12a4" (ready HIGH)
    = (if length (leading_digits (list_ascii_of_string "12a4")) =? String.length "12a4"
       then inr tt else inl ValueError,
       ready LOW, t) /\
    pulses_sent t = 1 + list_sum (leading_digits (list_ascii_of_string "12a4")) /\
    slept t
    = (1500
       + 600 * Z.of_nat (list_sum (leading_digits (list_ascii_of_string "12a4")))
       + 3100 * Z.of_nat (Nat.min 3 (length (leading_digits (list_ascii_of_string "12a4")))))%Z.
Proof. apply (send_pin_on_any_string "12a4" HIGH). reflexivity. Defined.


(** ** The time a run takes *)









(** The four decimal digits of an index of the loop. *)
Lemma code_digits i :
  i < code_space ->
  exists d0 d1 d2 d3,
    d0 <= 9 /\ d1 <= 9 /\ d2 <= 9 /\ d3 <= 9 /\
    i = d0 * 1000 + d1 * 100 + d2 * 10 + d3 /\
    digit_sum 4 i = d0 + d1 + d2 + d3.
Proof.
  rewrite code_space_eq. intros Hi.
  exists (i / 10 / 10 / 10), ((i / 10 / 10) mod 10), ((i / 10) mod 10), (i mod 10).
  pose proof (Nat.div_mod_eq i 10).
  pose proof (Nat.div_mod_eq (i / 10) 10).
  pose proof (Nat.div_mod_eq (i / 10 / 10) 10).
  pose proof (Nat.mod_upper_bound i 10).
  pose proof (Nat.mod_upper_bound (i / 10) 10).
  pose proof (Nat.mod_upper_bound (i / 10 / 10) 10).
  assert (i / 10 / 10 / 10 < 10).
  { rewrite !Nat.Div0.div_div. apply Nat.Div0.div_lt_upper_bound. lia. }
  cbn [digit_sum]. rewrite (Nat.mod_small (i / 10 / 10 / 10) 10) by assumption.
  repeat split; lia.
Qed.







(** ** The list of images *)

Lemma ascii_compare_refl c : Ascii.compare c c = Eq.
Proof. apply N.compare_refl. Qed.

Lemma string_compare_refl s : String.compare s s = Eq.
Proof.
  induction s as [|c s IH]; [reflexivity|].
  cbn [String.compare]. now rewrite ascii_compare_refl.
Qed.

Lemma before_refl a : before a a.
Proof. unfold before, String.leb. now rewrite string_compare_refl. Qed.

Lemma before_trans a : forall b c, before a b -> before b c -> before a c.
Proof.
  unfold before, String.leb.
  induction a as [|x a IH]; intros [|y b] [|z c]; cbn [String.compare];
    try easy.
  unfold Ascii.compare.
  destruct (N.compare_spec (N_of_ascii x) (N_of_ascii y)) as [Exy|Lxy|Gxy];
    try easy;
    destruct (N.compare_spec (N_of_ascii y) (N_of_ascii z)) as [Eyz|Lyz|Gyz];
    try easy;
    destruct (N.compare_spec (N_of_ascii x) (N_of_ascii z)) as [Exz|Lxz|Gxz];
    try easy; try lia.
  apply IH.
Qed.

Lemma before_total a b : before a b \/ before b a.
Proof. apply String.leb_total. Qed.

Lemma before_antisym a b : before a b -> before b a -> a = b.
Proof. apply String.leb_antisym. Qed.

Lemma not_before a b : String.leb a b = false -> before b a.
Proof.
  intros H. destruct (before_total a b) as [H1|H1]; [|exact H1].
  unfold before in H1. congruence.
Qed.

Lemma insert_sorted_perm x l : Permutation (insert_sorted x l) (x :: l).
Proof.
  induction l as [|y l IH]; [reflexivity|].
  cbn [insert_sorted]. destruct (String.leb x y); [reflexivity|].
  rewrite IH. apply perm_swap.
Qed.

Lemma sorted_perm l : Permutation (sorted l) l.
Proof.
  induction l as [|x l IH]; [reflexivity|].
  cbn [sorted]. rewrite insert_sorted_perm. now constructor.
Qed.

Lemma insert_sorted_sorted x l :
  StronglySorted before l -> StronglySorted before (insert_sorted x l).
Proof.
  induction l as [|y l IH]; intros Hs; cbn [insert_sorted].
  - repeat constructor.
  - apply StronglySorted_inv in Hs as [Hs Hy].
    destruct (String.leb x y) eqn:E.
    + constructor; [now constructor|].
      constructor; [exact E|].
      revert Hy. apply Forall_impl. intros z Hz.
      now apply (before_trans x y z).
    + constructor; [now apply IH|].
      apply not_before in E.
      rewrite Forall_forall in *. intros z Hz.
      apply (Permutation_in _ (insert_sorted_perm x l)) in Hz.
      destruct Hz as [<- | Hz]; auto.
Qed.

Lemma sorted_sorted l : StronglySorted before (sorted l).
Proof.
  induction l as [|x l IH]; [constructor|].
  cbn [sorted]. now apply insert_sorted_sorted.
Qed.

(** A list has one ascending arrangement. *)
Lemma sorted_unique l1 : forall l2,
  StronglySorted before l1 -> StronglySorted before l2 ->
  Permutation l1 l2 -> l1 = l2.
Proof.
  induction l1 as [|x l1 IH]; intros l2 H1 H2 Hp.
  - apply Permutation_nil in Hp. now subst.
  - destruct l2 as [|y l2].
    + apply Permutation_sym, Permutation_nil in Hp. discriminate.
    + apply StronglySorted_inv in H1 as [H1 Hx].
      apply StronglySorted_inv in H2 as [H2 Hy].
      rewrite Forall_forall in Hx, Hy.
      assert (Exy : x = y).
      { assert (Hx' : In x (y :: l2)) by (eapply Permutation_in; [exact Hp | now left]).
        assert (Hy' : In y (x :: l1))
          by (eapply Permutation_in; [apply Permutation_sym; exact Hp | now left]).
        destruct Hx' as [->|Hx']; [reflexivity|].
        destruct Hy' as [->|Hy']; [reflexivity|].
        apply before_antisym; auto. }
      subst y. f_equal. apply IH; try assumption.
      now apply Permutation_cons_inv in Hp.
Qed.

Lemma lower_app a b : lower (a ++ b) = (lower a ++ lower b)%string.
Proof. induction a as [|c a IH]; [reflexivity|]. cbn. now rewrite IH. Qed.

Lemma endswith_app a suffix : endswith (a ++ suffix) suffix = true.
Proof.
  induction a as [|c a IH].
  - destruct suffix; cbn; now rewrite ?Ascii.eqb_refl, ?String.eqb_refl.
  - cbn [append endswith]. rewrite IH. apply orb_true_r.
Qed.

Lemma append_assoc (a b c : string) : ((a ++ b) ++ c = a ++ (b ++ c))%string.
Proof. induction a as [|x a IH]; [reflexivity|]. cbn. now rewrite IH. Qed.

(** Every file that a capture task writes is listed. *)
Lemma is_image_image_name ts n : is_image (image_name ts n) = true.
Proof.
  unfold is_image, image_name. cbn [existsb].
  rewrite <- !append_assoc, lower_app.
  change (lower ".jpg") with ".jpg".
  now rewrite endswith_app.
Qed.

Lemma compare_common_prefix p a b :
  String.compare (p ++ a) (p ++ b) = String.compare a b.
Proof.
  induction p as [|c p IH]; [reflexivity|].
  cbn [append String.compare]. now rewrite ascii_compare_refl.
Qed.

Lemma decimal_char_compare a b :
  a <= 9 -> b <= 9 ->
  Ascii.compare (decimal_char a) (decimal_char b) = Nat.compare a b.
Proof.
  intros Ha Hb.
  do 10 (destruct a as [|a];
         [do 10 (destruct b as [|b]; [reflexivity|]); exfalso; lia|]).
  exfalso. lia.
Qed.

(** Below 10000 the counter and the name of the file are in the same
    order. *)
Lemma image_name_lt ts n m :
  n < m -> m < code_space ->
  String.compare (image_name ts n) (image_name ts m) = Lt.
Proof.
  intros Hnm Hm.
  destruct (code_digits n) as (a0 & a1 & a2 & a3 & A0 & A1 & A2 & A3 & En & _); [lia|].
  destruct (code_digits m) as (b0 & b1 & b2 & b3 & B0 & B1 & B2 & B3 & Em & _); [lia|].
  unfold image_name. rewrite compare_common_prefix.
  cbn [append String.compare]. rewrite ascii_compare_refl.
  rewrite En at 1. rewrite Em at 1.
  rewrite !fmt04d_digits by assumption.
  cbn [append String.compare].
  rewrite !decimal_char_compare by assumption.
  destruct (Nat.compare_spec a0 b0); [|reflexivity|exfalso; lia].
  destruct (Nat.compare_spec a1 b1); [|reflexivity|exfalso; lia].
  destruct (Nat.compare_spec a2 b2); [|reflexivity|exfalso; lia].
  destruct (Nat.compare_spec a3 b3); [|reflexivity|exfalso; lia].
  exfalso. lia.
Qed.

Lemma written_sorted ts n : forall k,
  k + n <= code_space ->
  StronglySorted before (map (image_name ts) (seq k n)).
Proof.
  induction n as [|n IH]; intros k Hk; [constructor|].
  cbn [seq map]. constructor; [apply IH; lia|].
  rewrite Forall_forall. intros f Hf.
  apply in_map_iff in Hf as (m & <- & Hm). apply in_seq in Hm.
  unfold before, String.leb. rewrite image_name_lt by lia. reflexivity.
Qed.

Lemma filter_all {A} (p : A -> bool) l :
  (forall x, In x l -> p x = true) -> filter p l = l.
Proof.
  induction l as [|x l IH]; intros H; [reflexivity|].
  cbn [filter]. rewrite (H x) by now left.
  f_equal. apply IH. intros y Hy. apply H. now right.
Qed.

(** [images_list] answers with the entries of the image directory whose name
    ends in .jpg, .jpeg or .png, capitals or not, each as often as the
    directory holds it and in ascending order, whatever the order in which
    the directory gave them; this includes every file that a capture task
    writes.  When the directory cannot be read it answers with an empty list
    and the text of the exception. *)
Theorem images_list_sorts_the_image_files :
  (forall entries,
     StronglySorted before (json_images (images_list (inr entries))) /\
     Permutation (json_images (images_list (inr entries)))
       (filter is_image entries) /\
     (forall f, In f (json_images (images_list (inr entries)))
                <-> In f entries /\ is_image f = true) /\
     json_error (images_list (inr entries)) = None) /\
  (forall ts n, is_image (image_name ts n) = true) /\
  (forall e, images_list (inl e) = {| json_images := []; json_error := Some e |}).
Proof.
  split; [|split].
  - intros entries. cbn [images_list json_images json_error].
    split; [apply sorted_sorted|]. split; [apply sorted_perm|].
    split; [|reflexivity].
    intros f. rewrite <- filter_In. split; apply Permutation_in.
    + apply sorted_perm.
    + apply Permutation_sym, sorted_perm.
  - exact is_image_image_name.
  - reflexivity.
Qed.

Lemma five_digits_eq : five_digits = code_space.
Proof. reflexivity. Qed.

Lemma sorted_written ts n entries :
  n < five_digits -> Permutation entries (written ts n) ->
  json_images (images_list (inr entries)) = written ts n.
Proof.
  rewrite five_digits_eq. intros Hn Hp. cbn [images_list json_images].
  rewrite filter_all.
  - apply sorted_unique.
    + apply sorted_sorted.
    + apply written_sorted. lia.
    + now rewrite sorted_perm.
  - intros f Hf. apply (Permutation_in _ Hp) in Hf.
    apply in_map_iff in Hf as (m & <- & _). apply is_image_image_name.
Qed.

Lemma strongly_sorted_middle {A} (R : A -> A -> Prop) l1 a l2 b :
  StronglySorted R (l1 ++ a :: l2) -> In b l2 -> R a b.
Proof.
  induction l1 as [|x l1 IH]; cbn [app]; intros Hs Hb.
  - apply StronglySorted_inv in Hs as [_ Hs].
    rewrite Forall_forall in Hs. auto.
  - apply StronglySorted_inv in Hs as [Hs _]. auto.
Qed.

Lemma wide_name_sorts_early ts :
  String.leb (image_name ts (five_digits - 1)) (image_name ts five_digits) = false.
Proof.
  unfold String.leb, image_name. rewrite compare_common_prefix.
  reflexivity.
Qed.

Lemma written_not_sorted ts n :
  five_digits <= n -> ~ StronglySorted before (written ts n).
Proof.
  intros Hn Hs. unfold written in Hs.
  assert (H2 : 2 <= five_digits) by (rewrite five_digits_eq, code_space_eq; lia).
  replace n with ((five_digits - 2) + S (n - (five_digits - 1))) in Hs by lia.
  rewrite seq_app, map_app in Hs. cbn [seq map] in Hs.
  replace (1 + (five_digits - 2)) with (five_digits - 1) in Hs by lia.
  apply strongly_sorted_middle with (b := image_name ts five_digits) in Hs.
  - unfold before in Hs. rewrite wide_name_sorts_early in Hs. discriminate.
  - apply in_map. apply in_seq. lia.
Qed.

(** [images_list] gives the images of one capture task in the order in which
    they were taken as long as the task has written fewer than 10000 of them,
    in whatever order the directory holds them.  From the 10000th image on it
    does not: the counter is written with five digits then, and the name of
    image 10000 sorts before that of image 9999. *)
Theorem images_list_capture_order :
  (forall ts n entries,
     n < five_digits ->
     Permutation entries (written ts n) ->
     json_images (images_list (inr entries)) = written ts n) /\
  (forall ts n entries,
     five_digits <= n ->
     Permutation entries (written ts n) ->
     json_images (images_list (inr entries)) <> written ts n) /\
  (forall ts,
     json_images (images_list
       (inr [image_name ts (five_digits - 1); image_name ts five_digits]))
     = [image_name ts five_digits; image_name ts (five_digits - 1)]).
Proof.
  split; [exact sorted_written|]. split.
  - intros ts n entries Hn Hp E.
    apply (written_not_sorted ts n Hn). rewrite <- E.
    cbn [images_list json_images]. apply sorted_sorted.
  - intros ts. cbn [images_list json_images filter].
    rewrite !is_image_image_name. cbn [sorted insert_sorted].
    now rewrite wide_name_sorts_early.
Qed.

Lemma images_list_capture_order_witness :
  json_images (images_list (inr [image_name "t" 2; image_name "t" 1]))
  = written "t" 2 /\
  json_images (images_list (inr (written "t" five_digits)))
  <> written "t" five_digits.
Proof.
  destruct images_list_capture_order as (A & B & _).
  split.
  - apply (A "t" 2).
    + rewrite five_digits_eq, code_space_eq. cbn. lia.
    + apply perm_swap.
  - apply (B "t" five_digits); [apply le_n | apply Permutation_refl].
Defined.

(** ** The line between two statements *)






(** ** Stopping a capture task *)

Lemma recorder_step_stopped o pc s h out :
  recorder_step o pc s h = Some out -> running s = false ->
  exists pc1,
    th' out = Recorder pc1 /\
    length (images (evs out)) + rec_budget pc1 <= rec_budget pc /\
    rec_dist pc1 <= rec_dist pc - 1.
Proof.
  intros Hs Hrun.
  destruct pc; unfold recorder_step, goto in Hs; try rewrite Hrun in Hs;
    repeat match type of Hs with
           | context [match ?x with _ => _ end] => destruct x
           end;
    try discriminate; injection Hs as <-; cbn [th' evs];
    eexists; (split; [reflexivity|]); cbn; try lia.
Qed.

Lemma recorder_step_none o pc s h :
  recorder_step o pc s h = None -> rec_dist pc = 0.
Proof.
  destruct pc; unfold recorder_step, goto;
    repeat match goal with
           | |- context [match ?x with _ => _ end] => destruct x
           end;
    try reflexivity; discriminate.
Qed.

Lemma capture_stopped_step c t pc l :
  nth_error (pool c) t = Some (Recorder pc) -> running (g c) = false ->
  exists pc1,
    nth_error (pool (step c l)) t = Some (Recorder pc1) /\
    length (images (events_of (Thr t) (history (step c l)))) + rec_budget pc1
    <= length (images (events_of (Thr t) (history c))) + rec_budget pc /\
    rec_dist pc1 <= rec_dist pc /\
    (forall o, l = Run t o -> alive c = true -> rec_dist pc1 <= rec_dist pc - 1).
Proof.
  intros Hn Hrun.
  assert (Ht : t < length (pool c)) by (apply nth_error_Some; congruence).
  unfold step. destruct (alive c) eqn:Ha; cbn [negb].
  2: { exists pc. repeat split; auto. discriminate. }
  destruct l as [x | u o | p].
  - exists pc. cbn [pool]. rewrite nth_error_app1 by assumption.
    repeat split; auto. discriminate.
  - destruct (nth_error (pool c) u) as [th|] eqn:Hu.
    2: { exists pc. repeat split; auto. intros o' [= ->]. congruence. }
    destruct (thread_step (length (pool c)) o th (g c) (hw c)) as [out|] eqn:Hs.
    + assert (Hul : u < length (pool c)) by (apply nth_error_Some; congruence).
      unfold history. cbn [pool trace]. fold (history c).
      rewrite history_run, events_of_app.
      rewrite nth_error_app1 by now rewrite length_update.
      destruct (Nat.eq_dec u t) as [->|Hne].
      * rewrite Hn in Hu. injection Hu as <-. cbn [thread_step] in Hs.
        destruct (recorder_step_stopped _ _ _ _ _ Hs Hrun) as (pc1 & E & Hb & Hd).
        exists pc1.
        rewrite nth_error_update_eq, events_of_tag_same by assumption.
        rewrite E, images_app, length_app. unfold history.
        repeat split; auto; lia.
      * exists pc. rewrite nth_error_update_neq by assumption.
        rewrite events_of_tag_other, app_nil_r by congruence.
        repeat split; auto. intros o' [= E]. congruence.
    + exists pc. repeat split; auto. intros o' [= -> _] _.
      rewrite Hn in Hu. injection Hu as <-. cbn [thread_step] in Hs.
      apply recorder_step_none in Hs. lia.
  - destruct (shutdown p (g c) (hw c)) as [[s1 h1] tr].
    exists pc. unfold history. cbn [pool trace]. fold (history c).
    rewrite rev_app_distr, rev_involutive, events_of_app.
    rewrite (events_of_tag_other (Thr t) Main), app_nil_r by discriminate.
    repeat split; auto. discriminate.
Qed.

(** A capture task, from a configuration in which the flag is cleared and
    along a schedule on which it stays cleared. *)
Lemma capture_stopped_exec t ls : forall c pc,
  nth_error (pool c) t = Some (Recorder pc) ->
  always stopped c ls = true ->
  exists pc1,
    nth_error (pool (exec c ls)) t = Some (Recorder pc1) /\
    length (images (events_of (Thr t) (history (exec c ls)))) + rec_budget pc1
    <= length (images (events_of (Thr t) (history c))) + rec_budget pc /\
    (alive (exec c ls) = true -> rec_dist pc1 <= rec_dist pc - steps_of t ls).
Proof.
  induction ls as [|l ls IH]; intros c pc Hn Hal.
  - exists pc. cbn. repeat split; auto. lia.
  - cbn [always] in Hal. apply andb_prop in Hal as [Hst Hal].
    unfold stopped in Hst. apply negb_true_iff in Hst.
    destruct (capture_stopped_step c t pc l Hn Hst)
      as (pc1 & Hn1 & Hb1 & Hd1 & Hd1').
    destruct (IH (step c l) pc1 Hn1 Hal) as (pc2 & Hn2 & Hb2 & Hd2).
    exists pc2. cbn [exec fold_left]. fold (exec (step c l) ls).
    split; [assumption|]. split; [lia|].
    intros Ha. specialize (Hd2 Ha).
    assert (Ha1 : alive (step c l) = true) by now apply alive_exec in Ha.
    assert (Ha0 : alive c = true) by now apply alive_step in Ha1.
    unfold steps_of in *. cbn [filter].
    destruct l as [x | u o | p]; try lia.
    destruct (u =? t) eqn:E; [|lia].
    apply Nat.eqb_eq in E. subst u. specialize (Hd1' o eq_refl Ha0).
    cbn [length]. lia.
Qed.

(** No capture task finds [camera] empty when it reads a frame. *)
Lemma capture_never_dies cam ok c :
  reachable (boot cam ok) c ->
  forall t, nth_error (pool c) t <> Some (Recorder R_Died).
Proof.
  intros Hr. induction Hr as [|c l Hr IH]; intros t H.
  - now destruct t.
  - apply (thread_view (boot cam ok)) in H; [|reflexivity|reflexivity|assumption].
    destruct H as [[H _] | [(o & th & out & -> & Ha & Hn & Hs & Ht & _) | (_ & _ & Hb)]].
    + now apply (IH t).
    + pose proof (camera_inv cam ok c Hr t th Hn) as Hc.
      destruct th as [a hpc | pc0 r0 | rpc | b].
      * step_cases Hs; discriminate.
      * cbn [thread_step] in Hs. clear - Hs Ht.
        destruct pc0; unfold brute_step, goto, fork in Hs;
          cbn beta iota zeta in Hs;
          repeat match type of Hs with
                 | context [match ?x with _ => _ end] => destruct x
                 end; try discriminate; injection Hs as <-; discriminate.
      * destruct rpc; try (step_cases Hs; discriminate).
        specialize (Hc eq_refl). step_cases Hs; try discriminate. congruence.
      * step_cases Hs; discriminate.
    + destruct Hb as [Hb | [Hb | [[a|] Hb]]]; discriminate.
Qed.

(** When the active flag is cleared and stays cleared, a capture task
    writes at most one more image: the one whose frame it had already read or
    was about to read.  After at most four more steps of its own it has
    returned, and then it has released the video that it opened. *)
Theorem capture_stops_within_one_tick :
  forall cam ok ls0 ls t pc,
    pc_of (exec (boot cam ok) ls0) t = Some (Recorder pc) ->
    always stopped (exec (boot cam ok) ls0) ls = true ->
    length (images (events_of (Thr t)
                      (history (exec (exec (boot cam ok) ls0) ls))))
    <= length (images (events_of (Thr t) (history (exec (boot cam ok) ls0)))) + 1 /\
    (4 <= steps_of t ls ->
     alive (exec (exec (boot cam ok) ls0) ls) = true ->
     pc_of (exec (exec (boot cam ok) ls0) ls) t = Some (Recorder R_Returned) /\
     exists ts outs,
       events_of (Thr t) (history (exec (exec (boot cam ok) ls0) ls))
       = opening ts ++ ticks ts 1 outs ++ closing).
Proof.
  intros cam ok ls0 ls t pc H Hal.
  destruct (capture_stopped_exec t ls _ pc H Hal) as (pc1 & Hn & Hb & Hd).
  split.
  - assert (rec_budget pc <= 1) by (destruct pc; cbn; lia). lia.
  - intros Hsteps Ha. specialize (Hd Ha).
    assert (rec_dist pc <= 4) by (destruct pc; cbn; lia).
    assert (Hz : rec_dist pc1 = 0) by lia.
    rewrite <- exec_app in *.
    pose proof (reachable_exec (boot cam ok) (ls0 ++ ls)) as Hr.
    destruct pc1; try discriminate Hz.
    + split; [exact Hn|].
      pose proof (rec_trace_inv cam ok _ Hr t _ Hn) as Ht.
      cbn [rec_trace] in Ht. destruct Ht as [E | Ht]; [|exact Ht].
      exfalso. apply (no_camera_exit_unreachable cam ok _ Hr t _ Hn).
      rewrite E. now left.
    + exfalso. exact (capture_never_dies cam ok _ Hr t Hn).
Qed.

Lemma capture_stops_within_one_tick_witness :
  length (images (events_of (Thr 2)
    (history (exec (exec (boot camera_ok true) stop_after_read) (runs 2 4)))))
  <= length (images (events_of (Thr 2)
       (history (exec (boot camera_ok true) stop_after_read)))) + 1 /\
  (4 <= steps_of 2 (runs 2 4) ->
   alive (exec (exec (boot camera_ok true) stop_after_read) (runs 2 4)) = true ->
   pc_of (exec (exec (boot camera_ok true) stop_after_read) (runs 2 4)) 2
   = Some (Recorder R_Returned) /\
   exists ts outs,
     events_of (Thr 2)
       (history (exec (exec (boot camera_ok true) stop_after_read) (runs 2 4)))
     = opening ts ++ ticks ts 1 outs ++ closing).
Proof.
  apply (capture_stops_within_one_tick camera_ok true stop_after_read (runs 2 4) 2
           (R_Stamp "t" 1)).
  - vm_compute. reflexivity.
  - vm_compute. reflexivity.
Defined.

(** The bound is reached: the frame that was read before the stop is still
    written. *)
Example one_more_image_after_stop :
  images (events_of (Thr 2) (history (exec (boot camera_ok true) stop_after_read)))
  = [] /\
  images (events_of (Thr 2)
            (history (exec (exec (boot camera_ok true) stop_after_read) (runs 2 4))))
  = [image_name "t" 1].
Proof. split; vm_compute; reflexivity. Qed.

(** ** What [last_pin] and [running] hold *)








(** A condition [R] that relates every thread to the events it has written,
    given a condition [Q] on the globals and the channel that the threads keep
    while the process lives. *)
Section LiveInvariant.
Variable Q : globals -> gpio -> Prop.
Variable R : thread -> list event -> Prop.

Hypothesis R_request : forall r, R (serve r) [].
Hypothesis R_run : R (Brute B_Start None) [].
Hypothesis R_capture : R (Recorder R_Start) [].
Hypothesis Q_step :
  forall fresh o th s h out,
    Q s h -> thread_step fresh o th s h = Some out -> Q (g' out) (hw' out).
Hypothesis R_step :
  forall fresh o th s h out ev,
    Q s h -> R th ev -> thread_step fresh o th s h = Some out ->
    R (th' out) (ev ++ evs out).

End LiveInvariant.
















